(** * The multi-backend wallet router (package wallet, [MultiWallet])

    A shallow embedding of the Go type [MultiWallet] and of its methods:
    the presence search [find], key-type routing for [WalletNew] and
    [WalletImport], enumeration with de-duplication ([WalletList]), the
    deletion loop ([WalletDelete]) and the operations forwarded to the local
    keystore.

    Backends are opaque: each one is a table of functions over an abstract
    world [W] that return either a value or a backend error.  Every backend
    call the router makes is appended, with its answer, to an event log, so
    that "which backend was consulted, in what order, and what it said" is a
    statement about the log. *)

From stdpp Require Import base option list gmap strings.

(** The three optional fields of [MultiWallet]. *)
Inductive slot := slotRemote | slotLedger | slotLocal.

#[global] Instance slot_eq_dec : EqDecision slot.
Proof. solve_decision. Defined.

(** A Go slice: [nil] and the empty slice [make([]T, 0)] are different
    values with the same (empty) contents. *)
Inductive slice (A : Type) := nilSlice | mkSlice (l : list A).
Arguments nilSlice {A}.
Arguments mkSlice {A} l.

Definition elems {A} (s : slice A) : list A :=
  match s with nilSlice => [] | mkSlice l => l end.

(** [append(s, a)] *)
Definition append {A} (s : slice A) (a : A) : slice A := mkSlice (elems s ++ [a]).

(** What stops a Go call without a returned value: reading a field through a
    nil pointer. *)
Inductive fault := NilDeref.

Section Router.

(** [address.Address] is a comparable value used as a map key,
    [types.KeyType] is compared with [==]; [types.KTSecp256k1Ledger] is the
    key type served by the Ledger. *)
Context {address : Type} `{Countable address}.
Context {KeyType : Type} `{EqDecision KeyType}.
Variable KTSecp256k1Ledger : KeyType.

(** Opaque collaborators: the state all backends live in, the errors they
    return, and the payload types that are only passed through. *)
Context {W BErr Signature MsgMeta Message SignedMessage : Type}.

(** [types.KeyInfo] *)
Record KeyInfo := { KeyInfo_Type : KeyType; PrivateKey : list Byte.byte }.

(** The [(value, error)] pair a backend method returns. *)
Inductive bres (A : Type) := BOk (a : A) | BFail (e : BErr).
Arguments BOk {A} a.
Arguments BFail {A} e.

(** The errors the router can return: the three it creates itself with
    [xerrors.Errorf], and the backend errors it passes on unchanged. *)
Inductive error :=
| ErrKeyNotFound                         (* "key not found" *)
| ErrNoBackendForKeyType (kt : KeyType)  (* "no wallet backends supporting key type: %s" *)
| ErrNoBackendsConfigured                (* "no wallet backends configured" *)
| BackendError (e : BErr).

(** Result of a router method: [Ok v] is [(v, nil)], [Err e] is
    [(zero value, e)], [Fault f] is a panic. *)
Inductive outcome (A : Type) := Ok (a : A) | Err (e : error) | Fault (f : fault).
Arguments Ok {A} a.
Arguments Err {A} e.
Arguments Fault {A} f.

(** [api.WalletAPI], as implemented by a configured backend. *)
Record WalletAPI := {
  apiWalletNew : KeyType → W → bres address * W;
  apiWalletHas : address → W → bres bool * W;
  apiWalletList : W → bres (slice address) * W;
  apiWalletSign : address → list Byte.byte → MsgMeta → W → bres Signature * W;
  apiWalletExport : address → string → W → bres KeyInfo * W;
  apiWalletImport : KeyInfo → W → bres address * W;
  apiWalletDelete : address → string → W → bres unit * W;
}.

(** [*LocalWallet] (non-nil): the interface above and the keystore
    operations only the local wallet has. *)
Record LocalWallet := {
  lwAPI : WalletAPI;
  lwWalletChangePasswd : string → W → bres bool * W;
  lwDeleteKey2 : address → W → bres unit * W;
  lwWalletClearPasswd : W → bres bool * W;
  lwWalletIsLock : W → bres bool * W;
  lwWalletLock : W → bres unit * W;
  lwWalletUnlock : string → W → bres unit * W;
  lwWalletSignMessage2 : address → Message → string → W → bres SignedMessage * W;
}.

(** The backend calls the router makes, with the answers it got. *)
Inductive local_op :=
| OpChangePasswd (p : string) | OpDeleteKey2 (a : address) | OpClearPasswd
| OpIsLock | OpLock | OpUnlock (p : string)
| OpSignMessage2 (a : address) (msg : Message) (p : string).

Inductive event :=
| EvNew (s : slot) (kt : KeyType) (r : bres address)
| EvHas (s : slot) (a : address) (r : bres bool)
| EvList (s : slot) (r : bres (slice address))
| EvSign (s : slot) (a : address) (msg : list Byte.byte) (meta : MsgMeta) (r : bres Signature)
| EvExport (s : slot) (a : address) (p : string) (r : bres KeyInfo)
| EvImport (s : slot) (ki : KeyInfo) (r : bres address)
| EvDelete (s : slot) (a : address) (p : string) (r : bres unit)
| EvLocalOnly (op : local_op).


(** The router has no state of its own; a run threads the backends' world
    and the log. *)
Record St := { world : W; events : list event }.

Definition M (A : Type) : Type := St → outcome A * St.

#[local] Instance M_ret : MRet M := λ A a st, (Ok a, st).
#[local] Instance M_bind : MBind M := λ A B k c st,
  match c st with
  | (Ok a, st') => k a st'
  | (Err e, st') => (Err e, st')
  | (Fault f, st') => (Fault f, st')
  end.

Definition fail {A} (e : error) : M A := λ st, (Err e, st).
Definition panic {A} (f : fault) : M A := λ st, (Fault f, st).

(** One backend call: run it on the world, log it with its answer, and
    turn the Go pair into [Ok] or [Err]. *)
Definition invoke {A} (ev : bres A → event) (f : W → bres A * W) : M A := λ st,
  let '(r, x) := f (world st) in
  let st' := {| world := x; events := events st ++ [ev r] |} in
  match r with
  | BOk a => (Ok a, st')
  | BFail e => (Err (BackendError e), st')
  end.

(** [MultiWallet]: three optional ([nil]-able) backend pointers. *)
Record MultiWallet := {
  Local : option LocalWallet;
  Remote : option WalletAPI;
  Ledger : option WalletAPI;
}.

(** A typed backend pointer seen through the interface [getif]: never a
    nil interface, but possibly a nil pointer inside.

    Modelled from the spec: the method [Get] of the three backend types is
    not part of these sources; it is the presence probe, answering [nil]
    exactly for an unconfigured slot and the backend itself otherwise. *)
Record getif := { tag : slot; Get : option WalletAPI }.

(** A non-nil [api.WalletAPI]. *)
Record wallet := { wtag : slot; impl : WalletAPI }.

Definition remote (m : MultiWallet) : getif := {| tag := slotRemote; Get := Remote m |}.
Definition ledger (m : MultiWallet) : getif := {| tag := slotLedger; Get := Ledger m |}.
Definition local (m : MultiWallet) : getif := {| tag := slotLocal; Get := lwAPI <$> Local m |}.

Fixpoint firstNonNil (wallets : list getif) : option wallet :=
  match wallets with
  | [] => None
  | w :: rest =>
      match Get w with
      | Some b => Some {| wtag := tag w; impl := b |}
      | None => firstNonNil rest
      end
  end.

Fixpoint nonNil (wallets : list getif) : list wallet :=
  match wallets with
  | [] => []
  | w :: rest =>
      match Get w with
      | None => nonNil rest
      | Some b => {| wtag := tag w; impl := b |} :: nonNil rest
      end
  end.

(** The [for _, w := range ws] loop of [find]. *)
Fixpoint find_loop (a : address) (ws : list wallet) : M (option wallet) :=
  match ws with
  | [] => mret None
  | w :: rest =>
      have ← invoke (EvHas (wtag w) a) (apiWalletHas (impl w) a);
      if (have : bool) then mret (Some w) else find_loop a rest
  end.

Definition find (a : address) (wallets : list getif) : M (option wallet) :=
  find_loop a (nonNil wallets).

Definition WalletNew (m : MultiWallet) (keyType : KeyType) : M address :=
  let local := if decide (keyType = KTSecp256k1Ledger) then ledger m else local m in
  match firstNonNil [remote m; local] with
  | None => fail (ErrNoBackendForKeyType keyType)
  | Some w => invoke (EvNew (wtag w) keyType) (apiWalletNew (impl w) keyType)
  end.

(** [return w != nil, err]: on an error [w] is nil, so the pair is
    [(false, err)], which [Err] stands for. *)
Definition WalletHas (m : MultiWallet) (a : address) : M bool :=
  w ← find a [remote m; ledger m; local m];
  mret (bool_decide (is_Some w)).

Definition list_inner (l : list address) (acc : gset address * slice address)
  : gset address * slice address :=
  foldl (λ '(seen, out) a,
           if decide (a ∈ seen) then (seen, out)
           else ({[a]} ∪ seen, append out a))
        acc l.

(** The outer loop of [WalletList], over the present backends. *)
Fixpoint list_loop (ws : list wallet) (acc : gset address * slice address)
  : M (slice address) :=
  match ws with
  | [] => mret acc.2
  | w :: rest =>
      l ← invoke (EvList (wtag w)) (apiWalletList (impl w));
      list_loop rest (list_inner (elems l) acc)
  end.

Definition WalletList (m : MultiWallet) : M (slice address) :=
  let out := mkSlice [] in
  let seen : gset address := ∅ in
  list_loop (nonNil [remote m; ledger m; local m]) (seen, out).

Definition WalletSign (m : MultiWallet) (signer : address)
    (toSign : list Byte.byte) (meta : MsgMeta) : M Signature :=
  w ← find signer [remote m; ledger m; local m];
  match w with
  | None => fail ErrKeyNotFound
  | Some w => invoke (EvSign (wtag w) signer toSign meta)
                     (apiWalletSign (impl w) signer toSign meta)
  end.

Definition WalletExport (m : MultiWallet) (a : address) (password : string)
  : M KeyInfo :=
  w ← find a [remote m; local m];
  match w with
  | None => fail ErrKeyNotFound
  | Some w => invoke (EvExport (wtag w) a password)
                     (apiWalletExport (impl w) a password)
  end.

(** Reading through a pointer. *)
Definition deref {A} (p : option A) : M A :=
  match p with
  | Some x => mret x
  | None => panic NilDeref
  end.

Definition WalletImport (m : MultiWallet) (info : option KeyInfo) : M address :=
  let local0 := local m in
  ki ← deref info;
  let local := if decide (KeyInfo_Type ki = KTSecp256k1Ledger) then ledger m else local0 in
  match firstNonNil [remote m; local] with
  | None => fail ErrNoBackendsConfigured
  | Some w => invoke (EvImport (wtag w) ki) (apiWalletImport (impl w) ki)
  end.

(** One round of the [for] loop of [WalletDelete]: [true] is [return nil],
    [false] is "go round again". *)
Definition delete_round (m : MultiWallet) (a : address) (pass : string) : M bool :=
  w ← find a [remote m; ledger m; local m];
  match w with
  | None => mret true
  | Some w =>
      _ ← invoke (EvDelete (wtag w) a pass) (apiWalletDelete (impl w) a pass);
      mret false
  end.

(** The loop has no bound in the source; [fuel] bounds the number of
    rounds and [None] says the bound was reached before the loop
    returned. *)
Fixpoint WalletDelete_fuel (fuel : nat) (m : MultiWallet) (a : address)
    (pass : string) (st : St) : option (outcome unit * St) :=
  match fuel with
  | 0 => None
  | S fuel' =>
      match delete_round m a pass st with
      | (Ok true, st') => Some (Ok (), st')
      | (Ok false, st') => WalletDelete_fuel fuel' m a pass st'
      | (Err e, st') => Some (Err e, st')
      | (Fault f, st') => Some (Fault f, st')
      end
  end.

(** [WalletDelete] returns [r] in state [st']. *)
Definition WalletDelete (m : MultiWallet) (a : address) (pass : string)
    (st : St) (r : outcome unit) (st' : St) : Prop :=
  ∃ fuel, WalletDelete_fuel fuel m a pass st = Some (r, st').

(** ** Operations forwarded to the local keystore

    [m.Local.F(...)] is a static call of a method of [*LocalWallet]: Go
    enters the method whether or not the pointer is nil.  For a non-nil
    receiver the method is the backend's; what the seven methods do on a
    nil receiver is in the local wallet's own code, which is not part of
    these sources, and is taken as a parameter. *)
Inductive nres (A : Type) := NRet (r : bres A) | NPanic (f : fault).
Arguments NRet {A} r.
Arguments NPanic {A} f.

Record NilLocalWallet := {
  nilWalletChangePasswd : string → W → nres bool * W;
  nilDeleteKey2 : address → W → nres unit * W;
  nilWalletClearPasswd : W → nres bool * W;
  nilWalletIsLock : W → nres bool * W;
  nilWalletLock : W → nres unit * W;
  nilWalletUnlock : string → W → nres unit * W;
  nilWalletSignMessage2 : address → Message → string → W → nres SignedMessage * W;
}.

Variable onNil : NilLocalWallet.

Definition outcome_of {A} (r : bres A) : outcome A :=
  match r with BOk a => Ok a | BFail e => Err (BackendError e) end.

(** A method of [*LocalWallet] applied to its receiver. *)
Definition outcome_of_nil {A} (r : nres A) : outcome A :=
  match r with NRet r => outcome_of r | NPanic f => Fault f end.

Definition method {A} (f : LocalWallet → W → bres A * W)
    (fnil : W → nres A * W) (recv : option LocalWallet) : W → outcome A * W :=
  match recv with
  | Some lw => λ x, let '(r, x') := f lw x in (outcome_of r, x')
  | None => λ x, let '(r, x') := fnil x in (outcome_of_nil r, x')
  end.

(** The call itself: logged as a call into the local wallet. *)
Definition forward {A} (op : local_op) (f : W → outcome A * W) : M A := λ st,
  let '(r, x) := f (world st) in
  (r, {| world := x; events := events st ++ [EvLocalOnly op] |}).

Definition WalletChangePasswd (m : MultiWallet) (newPasswd : string) : M bool :=
  forward (OpChangePasswd newPasswd)
    (method (λ lw, lwWalletChangePasswd lw newPasswd)
            (nilWalletChangePasswd onNil newPasswd) (Local m)).

Definition DeleteKey2 (m : MultiWallet) (addr : address) : M unit :=
  forward (OpDeleteKey2 addr)
    (method (λ lw, lwDeleteKey2 lw addr) (nilDeleteKey2 onNil addr) (Local m)).

Definition WalletClearPasswd (m : MultiWallet) : M bool :=
  forward OpClearPasswd
    (method lwWalletClearPasswd (nilWalletClearPasswd onNil) (Local m)).

Definition WalletIsLock (m : MultiWallet) : M bool :=
  forward OpIsLock (method lwWalletIsLock (nilWalletIsLock onNil) (Local m)).

Definition WalletLock (m : MultiWallet) : M unit :=
  forward OpLock (method lwWalletLock (nilWalletLock onNil) (Local m)).

Definition WalletUnlock (m : MultiWallet) (password : string) : M unit :=
  forward (OpUnlock password)
    (method (λ lw, lwWalletUnlock lw password)
            (nilWalletUnlock onNil password) (Local m)).

Definition WalletSignMessage2 (m : MultiWallet) (k : address) (msg : Message)
    (passwd : string) : M SignedMessage :=
  forward (OpSignMessage2 k msg passwd)
    (method (λ lw, lwWalletSignMessage2 lw k msg passwd)
            (nilWalletSignMessage2 onNil k msg passwd) (Local m)).

(** ** Definitions used to state the properties *)

(** The backend configured in a slot, if any. *)
Definition backend_at (m : MultiWallet) (s : slot) : option WalletAPI :=
  match s with
  | slotRemote => Remote m
  | slotLedger => Ledger m
  | slotLocal => lwAPI <$> Local m
  end.

Definition wallet_at (m : MultiWallet) (s : slot) : option wallet :=
  (λ b, {| wtag := s; impl := b |}) <$> backend_at m s.

(** The log entry of a [WalletHas] call answered "not mine". *)
Definition has_false (a : address) (w : wallet) : event :=
  EvHas (wtag w) a (BOk false).

(** The routing rule of creation and import in words: Remote when it is
    configured; otherwise the backend the key type selects, Ledger for the
    hardware key type and Local for every other, when that one is
    configured. *)
Definition route (m : MultiWallet) (kt : KeyType) : option wallet :=
  match wallet_at m slotRemote with
  | Some r => Some r
  | None =>
      wallet_at m (if decide (kt = KTSecp256k1Ledger) then slotLedger else slotLocal)
  end.

(** The errors the router makes itself, as opposed to those a backend
    returned. *)
Definition made_by_router (e : error) : bool :=
  match e with BackendError _ => false | _ => true end.

Definition router_error {A} (r : outcome A) : bool :=
  match r with Err e => made_by_router e | _ => false end.

(** The log entry of a [WalletDelete] call on [w] and the state after it. *)
Definition after_delete (w : wallet) (a : address) (pass : string)
    (r : bres unit) (x : W) (st : St) : St :=
  {| world := x; events := events st ++ [EvDelete (wtag w) a pass r] |}.

(** Deletion in the words of its description: resolve the owner with the
    search over Remote, Ledger, Local; no owner is success; a failed search
    or a failed backend delete is that error; after a successful backend
    delete, start again from the resolution. *)
Inductive delete_run (m : MultiWallet) (a : address) (pass : string)
  : St → outcome unit → St → Prop :=
| delete_no_owner st st1 :
    find a [remote m; ledger m; local m] st = (Ok None, st1) →
    delete_run m a pass st (Ok ()) st1
| delete_search_failed st e st1 :
    find a [remote m; ledger m; local m] st = (Err e, st1) →
    delete_run m a pass st (Err e) st1
| delete_backend_failed st w st1 be x :
    find a [remote m; ledger m; local m] st = (Ok (Some w), st1) →
    apiWalletDelete (impl w) a pass (world st1) = (BFail be, x) →
    delete_run m a pass st (Err (BackendError be))
               (after_delete w a pass (BFail be) x st1)
| delete_again st w st1 u x r st3 :
    find a [remote m; ledger m; local m] st = (Ok (Some w), st1) →
    apiWalletDelete (impl w) a pass (world st1) = (BOk u, x) →
    delete_run m a pass (after_delete w a pass (BOk u) x st1) r st3 →
    delete_run m a pass st r st3.

(** Backend [w] claims address [a] in world [x]: its HasKey answers true. *)
Definition claims (a : address) (w : wallet) (x : W) : bool :=
  match (apiWalletHas (impl w) a x).1 with
  | BOk true => true
  | _ => false
  end.

(** The number of configured backends that claim [a]. *)
Definition claimants (m : MultiWallet) (a : address) (x : W) : nat :=
  length (filter (λ w, claims a w x = true) (nonNil [remote m; ledger m; local m])).

(** Duplicates removed, first occurrences kept in their order: the head
    stays and every later copy of it goes. *)
Fixpoint first_occurrences (l : list address) : list address :=
  match l with
  | [] => []
  | x :: l' => x :: filter (λ y, y ≠ x) (first_occurrences l')
  end.

(** The log entry of a successful [WalletList] call. *)
Definition listed (w : wallet) (l : slice address) : event :=
  EvList (wtag w) (BOk l).

(** The state of the loops of [WalletList]: [seen] holds the addresses met so far, [out] their first
    occurrences, and [out] is not nil. *)
Definition list_inv (acc : gset address * slice address) (L : list address) : Prop :=
  (∀ x, x ∈ acc.1 ↔ x ∈ L) ∧ acc.2 = mkSlice (first_occurrences L).

(** What a successful return of the deletion loop leaves behind: no
    configured backend claims [a], and Has does not report true; it reports
    false without an error when no HasKey call fails. *)
Definition converged (m : MultiWallet) (a : address) (st' : St) : Prop :=
  let present := nonNil [remote m; ledger m; local m] in
  (∀ v, v ∈ present → claims a v (world st') = false)
  ∧ claimants m a (world st') = 0
  ∧ (WalletHas m a st').1 ≠ Ok true
  ∧ ((∀ v x be, v ∈ present → (apiWalletHas (impl v) a x).1 ≠ BFail be) →
     (WalletHas m a st').1 = Ok false).

(** The log of one round of deletion that found the owner [w] after the
    backends [pre] answered false, and got the answer [r] to its delete. *)
Definition round_log (a : address) (pass : string) (pre : list wallet)
    (w : wallet) (r : bres unit) : list event :=
  (has_false a <$> pre) ++ [EvHas (wtag w) a (BOk true); EvDelete (wtag w) a pass r].

(** The logs a returned [WalletDelete] can leave, by its result: rounds that
    deleted, then a search with no owner, a failed search, or a failed
    delete. *)
Inductive delete_log (m : MultiWallet) (a : address) (pass : string)
  : outcome unit → list event → Prop :=
| log_no_owner :
    delete_log m a pass (Ok ())
      (has_false a <$> nonNil [remote m; ledger m; local m])
| log_search_failed be pre w post :
    nonNil [remote m; ledger m; local m] = pre ++ w :: post →
    delete_log m a pass (Err (BackendError be))
      ((has_false a <$> pre) ++ [EvHas (wtag w) a (BFail be)])
| log_delete_failed be pre w post :
    nonNil [remote m; ledger m; local m] = pre ++ w :: post →
    delete_log m a pass (Err (BackendError be)) (round_log a pass pre w (BFail be))
| log_round pre w post u r evs :
    nonNil [remote m; ledger m; local m] = pre ++ w :: post →
    delete_log m a pass r evs →
    delete_log m a pass r (round_log a pass pre w (BOk u) ++ evs).

(** A log in which every delete call comes right after the same backend's
    HasKey answered true for the same address. *)
Inductive guarded (a : address) (pass : string) : list event → Prop :=
| guarded_nil : guarded a pass []
| guarded_delete s r evs :
    guarded a pass evs →
    guarded a pass (EvHas s a (BOk true) :: EvDelete s a pass r :: evs)
| guarded_other ev evs :
    (∀ s a' p r, ev ≠ EvDelete s a' p r) →
    guarded a pass evs →
    guarded a pass (ev :: evs).

(** Asked in turn from the world [x], each backend of the list answers
    HasKey with false; the last argument is the world after the last
    answer. *)
Inductive all_false (a : address) : list wallet → W → W → Prop :=
| all_false_nil x : all_false a [] x x
| all_false_cons w ws x x1 x2 :
    apiWalletHas (impl w) a x = (BOk false, x1) →
    all_false a ws x1 x2 →
    all_false a (w :: ws) x x2.

(** The state [st] after more calls: the world they left and their log
    entries. *)
Definition logged (st : St) (x : W) (evs : list event) : St :=
  {| world := x; events := events st ++ evs |}.

(** The backends configured in [m], in the order Remote, Ledger, Local. *)
Definition configured (m : MultiWallet) : list wallet :=
  omap (wallet_at m) [slotRemote; slotLedger; slotLocal].

(** Deletion described from the answers of the backends alone.  The
    configured backends are asked HasKey in the order Remote, Ledger, Local.
    All answer false: success.  One fails: that error.  One answers true
    after the ones before it answered false: it is asked to delete; its
    failure is the error returned, and after its success everything starts
    again in the world it left. *)
Inductive deletes (m : MultiWallet) (a : address) (pass : string)
  : St → outcome unit → St → Prop :=
| deletes_no_owner st x1 :
    all_false a (configured m) (world st) x1 →
    deletes m a pass st (Ok ()) (logged st x1 (has_false a <$> configured m))
| deletes_search_failed st pre w post x1 be x2 :
    configured m = pre ++ w :: post →
    all_false a pre (world st) x1 →
    apiWalletHas (impl w) a x1 = (BFail be, x2) →
    deletes m a pass st (Err (BackendError be))
      (logged st x2 ((has_false a <$> pre) ++ [EvHas (wtag w) a (BFail be)]))
| deletes_backend_failed st pre w post x1 x2 be x3 :
    configured m = pre ++ w :: post →
    all_false a pre (world st) x1 →
    apiWalletHas (impl w) a x1 = (BOk true, x2) →
    apiWalletDelete (impl w) a pass x2 = (BFail be, x3) →
    deletes m a pass st (Err (BackendError be))
      (logged st x3 (round_log a pass pre w (BFail be)))
| deletes_again st pre w post x1 x2 u x3 r st' :
    configured m = pre ++ w :: post →
    all_false a pre (world st) x1 →
    apiWalletHas (impl w) a x1 = (BOk true, x2) →
    apiWalletDelete (impl w) a pass x2 = (BOk u, x3) →
    deletes m a pass (logged st x3 (round_log a pass pre w (BOk u))) r st' →
    deletes m a pass st r st'.

(** ** The search [find] *)

Lemma nonNil_omap (m : MultiWallet) (ss : list slot) :
  nonNil ((λ s, {| tag := s; Get := backend_at m s |}) <$> ss)
  = omap (wallet_at m) ss.
Proof.
  induction ss as [|s ss IH]; csimpl; [done|].
  unfold wallet_at at 1. destruct (backend_at m s); csimpl; by rewrite IH.
Qed.

Lemma nonNil_all (m : MultiWallet) :
  nonNil [remote m; ledger m; local m]
  = omap (wallet_at m) [slotRemote; slotLedger; slotLocal].
Proof. exact (nonNil_omap m [slotRemote; slotLedger; slotLocal]). Qed.

Lemma nonNil_export (m : MultiWallet) :
  nonNil [remote m; local m] = omap (wallet_at m) [slotRemote; slotLocal].
Proof. exact (nonNil_omap m [slotRemote; slotLocal]). Qed.

Lemma find_loop_spec (a : address) (ws : list wallet) (st : St) :
  match find_loop a ws st with
  | (Ok (Some w), st') =>
      ∃ pre post, ws = pre ++ w :: post
        ∧ events st' = events st ++ (has_false a <$> pre)
                                 ++ [EvHas (wtag w) a (BOk true)]
  | (Ok None, st') => events st' = events st ++ (has_false a <$> ws)
  | (Err e, st') =>
      ∃ be pre w post, e = BackendError be ∧ ws = pre ++ w :: post
        ∧ events st' = events st ++ (has_false a <$> pre)
                                 ++ [EvHas (wtag w) a (BFail be)]
  | (Fault _, _) => False
  end.
Proof.
  revert st. induction ws as [|w ws IH]; intros st; simpl.
  { by rewrite app_nil_r. }
  unfold mbind, M_bind, invoke.
  destruct (apiWalletHas (impl w) a (world st)) as [[[|]|be] x]; simpl.
  - by exists [], ws.
  - match goal with |- context [find_loop a ws ?s] => specialize (IH s) end.
    destruct (find_loop a ws _) as [[[v|]|e|f] st']; simpl in *.
    + destruct IH as (pre & post & -> & ->).
      exists (w :: pre), post. by rewrite <-!app_assoc.
    + by rewrite IH, <-app_assoc.
    + destruct IH as (be & pre & v & post & -> & -> & ->).
      exists be, (w :: pre), v, post. by rewrite <-!app_assoc.
    + done.
  - by exists be, [], w, ws.
Qed.

Lemma find_spec (a : address) (wallets : list getif) (st : St) :
  match find a wallets st with
  | (Ok (Some w), st') =>
      ∃ pre post, nonNil wallets = pre ++ w :: post
        ∧ events st' = events st ++ (has_false a <$> pre)
                                 ++ [EvHas (wtag w) a (BOk true)]
  | (Ok None, st') => events st' = events st ++ (has_false a <$> nonNil wallets)
  | (Err e, st') =>
      ∃ be pre w post, e = BackendError be ∧ nonNil wallets = pre ++ w :: post
        ∧ events st' = events st ++ (has_false a <$> pre)
                                 ++ [EvHas (wtag w) a (BFail be)]
  | (Fault _, _) => False
  end.
Proof. apply find_loop_spec. Qed.

(** Running the methods that start with a search, once the search is known. *)
Ltac search_known Hf :=
  unfold WalletHas, WalletSign, WalletExport, delete_round, mbind, M_bind;
  rewrite ?Hf; simpl.

(** *** The search, from the answers of the backends *)

Lemma logged_here (st : St) : logged st (world st) [] = st.
Proof. destruct st. unfold logged. simpl. by rewrite app_nil_r. Qed.

Lemma logged_logged (st : St) (x x' : W) (evs evs' : list event) :
  logged (logged st x evs) x' evs' = logged st x' (evs ++ evs').
Proof. unfold logged. simpl. by rewrite <-app_assoc. Qed.

(** All answer false: no owner, no error. *)
Lemma find_loop_none (a : address) (ws : list wallet) (x x1 : W) :
  all_false a ws x x1 →
  ∀ st, world st = x →
    find_loop a ws st = (Ok None, logged st x1 (has_false a <$> ws)).
Proof.
  induction 1 as [x|w ws x x1 x2 Hhas _ IH]; intros st Hst; simpl.
  - by rewrite <-Hst, logged_here.
  - unfold mbind, M_bind, invoke. rewrite Hst, Hhas. simpl.
    rewrite IH by done. f_equal. unfold logged. simpl. by rewrite <-app_assoc.
Qed.

(** The answer of [w], asked after the backends before it answered false. *)
Lemma find_loop_reaches (a : address) (pre : list wallet) (w : wallet)
    (post : list wallet) (x x1 : W) :
  all_false a pre x x1 →
  ∀ st, world st = x →
    find_loop a (pre ++ w :: post) st
    = match apiWalletHas (impl w) a x1 with
      | (BOk true, x2) =>
          (Ok (Some w),
           logged st x2 ((has_false a <$> pre) ++ [EvHas (wtag w) a (BOk true)]))
      | (BOk false, x2) =>
          find_loop a post
            (logged st x2 ((has_false a <$> pre) ++ [EvHas (wtag w) a (BOk false)]))
      | (BFail be, x2) =>
          (Err (BackendError be),
           logged st x2 ((has_false a <$> pre) ++ [EvHas (wtag w) a (BFail be)]))
      end.
Proof.
  induction 1 as [x|v pre x x1 x2 Hhas _ IH]; intros st Hst; simpl.
  - unfold mbind, M_bind, invoke. rewrite Hst.
    by destruct (apiWalletHas (impl w) a x) as [[[|]|be] x2].
  - unfold mbind, M_bind, invoke. rewrite Hst, Hhas. simpl.
    rewrite IH by done.
    destruct (apiWalletHas (impl w) a x2) as [[[|]|be] x3];
      unfold logged; simpl; by rewrite <-!app_assoc.
Qed.

(** The three ways a search can go, each with the answers behind it. *)
Lemma find_loop_cases (a : address) (ws : list wallet) (st : St) :
  (∃ x1, all_false a ws (world st) x1
         ∧ find_loop a ws st = (Ok None, logged st x1 (has_false a <$> ws)))
  ∨ (∃ pre w post x1 x2,
        ws = pre ++ w :: post ∧ all_false a pre (world st) x1
        ∧ apiWalletHas (impl w) a x1 = (BOk true, x2)
        ∧ find_loop a ws st
          = (Ok (Some w),
             logged st x2 ((has_false a <$> pre) ++ [EvHas (wtag w) a (BOk true)])))
  ∨ (∃ pre w post x1 be x2,
        ws = pre ++ w :: post ∧ all_false a pre (world st) x1
        ∧ apiWalletHas (impl w) a x1 = (BFail be, x2)
        ∧ find_loop a ws st
          = (Err (BackendError be),
             logged st x2 ((has_false a <$> pre) ++ [EvHas (wtag w) a (BFail be)]))).
Proof.
  revert st. induction ws as [|w ws IH]; intros st.
  { left. exists (world st). split; [constructor|]. simpl. by rewrite logged_here. }
  pose proof (find_loop_reaches a [] w ws (world st) (world st)
                (all_false_nil a _) st eq_refl) as Hstep.
  simpl app in Hstep.
  destruct (apiWalletHas (impl w) a (world st)) as [[[|]|be] x] eqn:Hhas.
  - right; left. exists [], w, ws, (world st), x.
    split; [done|]. split; [constructor|]. by split.
  - match type of Hstep with _ = find_loop a ws ?s => destruct (IH s)
      as [(x1 & Hall & Hf)|[(pre & v & post & x1 & x2 & -> & Hall & Hv & Hf)
         |(pre & v & post & x1 & be & x2 & -> & Hall & Hv & Hf)]] end;
      rewrite Hf, logged_logged in Hstep.
    + left. exists x1. split; [by econstructor|]. by rewrite Hstep.
    + right; left. exists (w :: pre), v, post, x1, x2.
      split; [done|]. split; [by econstructor|]. split; [done|].
      by rewrite Hstep.
    + right; right. exists (w :: pre), v, post, x1, be, x2.
      split; [done|]. split; [by econstructor|]. split; [done|].
      by rewrite Hstep.
  - right; right. exists [], w, ws, (world st), be, x.
    split; [done|]. split; [constructor|]. by split.
Qed.

Lemma find_all (m : MultiWallet) (a : address) (st : St) :
  find a [remote m; ledger m; local m] st = find_loop a (configured m) st.
Proof. unfold find, configured. by rewrite nonNil_all. Qed.

Lemma find_export (m : MultiWallet) (a : address) (st : St) :
  find a [remote m; local m] st
  = find_loop a (omap (wallet_at m) [slotRemote; slotLocal]) st.
Proof. unfold find. by rewrite nonNil_export. Qed.

(** C1: the search of Has, Sign and Delete asks the configured backends in
    the order Remote, Ledger, Local, leaving out the slots that are nil.
    When a configured backend answers true after all the configured ones
    before it answered false, it is the owner returned: Has is true, Sign
    and Delete go to that backend, and the backends after it are not asked.
    When every configured backend answers false the search returns no owner
    and no error, and Has is false without an error.  Conversely the log of
    a search shows the answers behind its result. *)
Theorem C1_find_first_owner (m : MultiWallet) (a : address) (st : St) :
  let present := omap (wallet_at m) [slotRemote; slotLedger; slotLocal] in
  nonNil [remote m; ledger m; local m] = present
  ∧ (∀ pre w post x1 x2,
       present = pre ++ w :: post →
       all_false a pre (world st) x1 →
       apiWalletHas (impl w) a x1 = (BOk true, x2) →
       let st' := logged st x2 ((has_false a <$> pre)
                                ++ [EvHas (wtag w) a (BOk true)]) in
       find a [remote m; ledger m; local m] st = (Ok (Some w), st')
       ∧ WalletHas m a st = (Ok true, st')
       ∧ (∀ msg meta, WalletSign m a msg meta st
            = invoke (EvSign (wtag w) a msg meta)
                     (apiWalletSign (impl w) a msg meta) st')
       ∧ (∀ pass, delete_round m a pass st
            = (invoke (EvDelete (wtag w) a pass)
                      (apiWalletDelete (impl w) a pass) ≫= λ _, mret false) st'))
  ∧ (∀ x1,
       all_false a present (world st) x1 →
       let st' := logged st x1 (has_false a <$> present) in
       find a [remote m; ledger m; local m] st = (Ok None, st')
       ∧ WalletHas m a st = (Ok false, st'))
  ∧ match find a [remote m; ledger m; local m] st with
    | (Ok (Some w), st') =>
        (∃ pre post, present = pre ++ w :: post
           ∧ events st' = events st ++ (has_false a <$> pre)
                                    ++ [EvHas (wtag w) a (BOk true)])
        ∧ WalletHas m a st = (Ok true, st')
        ∧ (∀ msg meta, WalletSign m a msg meta st
             = invoke (EvSign (wtag w) a msg meta)
                      (apiWalletSign (impl w) a msg meta) st')
        ∧ (∀ pass, delete_round m a pass st
             = (invoke (EvDelete (wtag w) a pass)
                       (apiWalletDelete (impl w) a pass) ≫= λ _, mret false) st')
    | (Ok None, st') =>
        events st' = events st ++ (has_false a <$> present)
        ∧ WalletHas m a st = (Ok false, st')
    | (Err e, st') => WalletHas m a st = (Err e, st')
    | (Fault _, _) => False
    end.
Proof.
  intros present. split; [apply nonNil_all|]. split; [|split].
  - intros pre w post x1 x2 Hsplit Hall Hhas st'.
    assert (Hf : find a [remote m; ledger m; local m] st = (Ok (Some w), st')).
    { rewrite find_all. unfold configured. fold present. rewrite Hsplit.
      rewrite (find_loop_reaches a pre w post _ x1 Hall st eq_refl).
      by rewrite Hhas. }
    split; [done|]. by search_known Hf.
  - intros x1 Hall st'.
    assert (Hf : find a [remote m; ledger m; local m] st = (Ok None, st')).
    { rewrite find_all. by apply find_loop_none with (x := world st). }
    split; [done|]. by search_known Hf.
  - pose proof (find_spec a [remote m; ledger m; local m] st) as Hs.
    rewrite nonNil_all in Hs. fold present in Hs.
    destruct (find a [remote m; ledger m; local m] st) as [[[w|]|e|f] st'] eqn:Hf;
      [| | |done].
    + split; [exact Hs|]. by search_known Hf.
    + split; [exact Hs|]. by search_known Hf.
    + by search_known Hf.
Qed.

(** C2: when a configured backend's HasKey call fails, after the configured
    backends before it answered false, the search stops there: the failing
    call is the last one in the log, the backends after it are not asked
    whatever they would answer, and Has, Sign and Delete (search over
    Remote, Ledger, Local) and Export (search over Remote, Local) return
    that backend's error in that state. *)
Theorem C2_search_error_aborts (m : MultiWallet) (a : address) (st : St)
    (pre : list wallet) (w : wallet) (post : list wallet) (x1 x2 : W)
    (be : BErr) :
  all_false a pre (world st) x1 →
  apiWalletHas (impl w) a x1 = (BFail be, x2) →
  let st' := logged st x2 ((has_false a <$> pre)
                           ++ [EvHas (wtag w) a (BFail be)]) in
  (omap (wallet_at m) [slotRemote; slotLedger; slotLocal] = pre ++ w :: post →
     find a [remote m; ledger m; local m] st = (Err (BackendError be), st')
     ∧ WalletHas m a st = (Err (BackendError be), st')
     ∧ (∀ msg meta, WalletSign m a msg meta st = (Err (BackendError be), st'))
     ∧ (∀ pass fuel,
          WalletDelete_fuel (S fuel) m a pass st
          = Some (Err (BackendError be), st')))
  ∧ (omap (wallet_at m) [slotRemote; slotLocal] = pre ++ w :: post →
     find a [remote m; local m] st = (Err (BackendError be), st')
     ∧ (∀ password,
          WalletExport m a password st = (Err (BackendError be), st'))).
Proof.
  intros Hall Hhas st'. split; intros Hsplit.
  - assert (Hf : find a [remote m; ledger m; local m] st
                 = (Err (BackendError be), st')).
    { rewrite find_all. unfold configured. rewrite Hsplit.
      rewrite (find_loop_reaches a pre w post _ x1 Hall st eq_refl).
      by rewrite Hhas. }
    split; [done|]. split; [by search_known Hf|].
    split; [intros; by search_known Hf|].
    intros pass fuel. simpl. by search_known Hf.
  - assert (Hf : find a [remote m; local m] st = (Err (BackendError be), st')).
    { rewrite find_export, Hsplit.
      rewrite (find_loop_reaches a pre w post _ x1 Hall st eq_refl).
      by rewrite Hhas. }
    split; [done|]. intros; by search_known Hf.
Qed.

(** ** Creation and import *)

Lemma firstNonNil_route (m : MultiWallet) (kt : KeyType) :
  firstNonNil [remote m;
               if decide (kt = KTSecp256k1Ledger) then ledger m else local m]
  = route m kt.
Proof.
  unfold route, wallet_at. simpl.
  destruct (Remote m); simpl; [done|].
  destruct (decide (kt = KTSecp256k1Ledger)); simpl.
  - by destruct (Ledger m).
  - by destruct (Local m).
Qed.

Lemma WalletNew_route (m : MultiWallet) (kt : KeyType) (st : St) :
  WalletNew m kt st
  = match route m kt with
    | Some w => invoke (EvNew (wtag w) kt) (apiWalletNew (impl w) kt) st
    | None => (Err (ErrNoBackendForKeyType kt), st)
    end.
Proof. unfold WalletNew. rewrite firstNonNil_route. by destruct (route m kt). Qed.

Lemma WalletImport_route (m : MultiWallet) (ki : KeyInfo) (st : St) :
  WalletImport m (Some ki) st
  = match route m (KeyInfo_Type ki) with
    | Some w => invoke (EvImport (wtag w) ki) (apiWalletImport (impl w) ki) st
    | None => (Err ErrNoBackendsConfigured, st)
    end.
Proof.
  unfold WalletImport, mbind, M_bind. simpl deref. cbv beta iota zeta.
  unfold mret, M_ret. cbv beta iota.
  rewrite firstNonNil_route. by destruct (route m (KeyInfo_Type ki)).
Qed.

(** C3: New and Import do not search: the request goes to Remote when Remote
    is configured, otherwise to the backend the key type selects (Ledger for
    the hardware key type, Local for any other) when that one is configured,
    and otherwise fails with the router's "no wallet backends" error without
    calling any backend.  With Remote and Local configured a hardware-type
    New goes to Remote; with only Local configured it fails. *)
Theorem C3_new_import_route_by_key_type (m : MultiWallet) (kt : KeyType)
    (ki : KeyInfo) (st : St) :
  WalletNew m kt st
    = match route m kt with
      | Some w => invoke (EvNew (wtag w) kt) (apiWalletNew (impl w) kt) st
      | None => (Err (ErrNoBackendForKeyType kt), st)
      end
  ∧ WalletImport m (Some ki) st
    = match route m (KeyInfo_Type ki) with
      | Some w => invoke (EvImport (wtag w) ki) (apiWalletImport (impl w) ki) st
      | None => (Err ErrNoBackendsConfigured, st)
      end
  ∧ (∀ r l h,
       WalletNew {| Local := Some l; Remote := Some r; Ledger := h |}
                 KTSecp256k1Ledger st
       = invoke (EvNew slotRemote KTSecp256k1Ledger)
                (apiWalletNew r KTSecp256k1Ledger) st)
  ∧ (∀ l,
       WalletNew {| Local := Some l; Remote := None; Ledger := None |}
                 KTSecp256k1Ledger st
       = (Err (ErrNoBackendForKeyType KTSecp256k1Ledger), st)).
Proof.
  split; [apply WalletNew_route|]. split; [apply WalletImport_route|].
  split.
  - intros r l h. by rewrite WalletNew_route.
  - intros l. rewrite WalletNew_route. unfold route, wallet_at. simpl.
    by rewrite decide_True.
Qed.

(** ** Operations forwarded to the local keystore *)

Lemma method_nil_not_router {A} (f : LocalWallet → W → bres A * W)
    (fnil : W → nres A * W) (op : local_op) (st : St) :
  router_error (forward op (method f fnil None) st).1 = false.
Proof.
  unfold forward, method. destruct (fnil (world st)) as [[[?|?]|?] ?]; done.
Qed.

(** With Local configured, a forwarded operation is one call of the local
    wallet's method, and nothing else is called. *)
Lemma local_only_forwarded (remote ledger : option WalletAPI) (lw : LocalWallet)
    (st : St) :
  let m := {| Local := Some lw; Remote := remote; Ledger := ledger |} in
  WalletLock m st
    = (let '(r, x) := lwWalletLock lw (world st) in
       (outcome_of r, {| world := x; events := events st ++ [EvLocalOnly OpLock] |}))
  ∧ (∀ p, WalletUnlock m p st
      = (let '(r, x) := lwWalletUnlock lw p (world st) in
         (outcome_of r,
          {| world := x; events := events st ++ [EvLocalOnly (OpUnlock p)] |})))
  ∧ (∀ p, WalletChangePasswd m p st
      = (let '(r, x) := lwWalletChangePasswd lw p (world st) in
         (outcome_of r,
          {| world := x; events := events st ++ [EvLocalOnly (OpChangePasswd p)] |})))
  ∧ WalletClearPasswd m st
    = (let '(r, x) := lwWalletClearPasswd lw (world st) in
       (outcome_of r,
        {| world := x; events := events st ++ [EvLocalOnly OpClearPasswd] |}))
  ∧ WalletIsLock m st
    = (let '(r, x) := lwWalletIsLock lw (world st) in
       (outcome_of r, {| world := x; events := events st ++ [EvLocalOnly OpIsLock] |}))
  ∧ (∀ k msg p, WalletSignMessage2 m k msg p st
      = (let '(r, x) := lwWalletSignMessage2 lw k msg p (world st) in
         (outcome_of r,
          {| world := x;
             events := events st ++ [EvLocalOnly (OpSignMessage2 k msg p)] |}))).
Proof.
  intros m.
  unfold WalletLock, WalletUnlock, WalletChangePasswd, WalletClearPasswd,
    WalletIsLock, WalletSignMessage2, forward, method; simpl.
  repeat split; intros.
  all: match goal with
       | |- context [lwWalletLock ?a ?b] => destruct (lwWalletLock a b)
       | |- context [lwWalletUnlock ?a ?b ?c] => destruct (lwWalletUnlock a b c)
       | |- context [lwWalletChangePasswd ?a ?b ?c] =>
           destruct (lwWalletChangePasswd a b c)
       | |- context [lwWalletClearPasswd ?a ?b] => destruct (lwWalletClearPasswd a b)
       | |- context [lwWalletIsLock ?a ?b] => destruct (lwWalletIsLock a b)
       | |- context [lwWalletSignMessage2 ?a ?b ?c ?d ?e] =>
           destruct (lwWalletSignMessage2 a b c d e)
       end.
  all: done.
Qed.

(** No forwarded operation looks at whether Local is configured.  With
    Local nil the method of the local wallet is entered on the nil receiver
    all the same; the one call is logged and the result is never one of the
    router's own errors: it is whatever the method does with a nil
    receiver. *)
Lemma nil_local_unguarded (remote ledger : option WalletAPI) (st : St) :
  let m := {| Local := None; Remote := remote; Ledger := ledger |} in
  (WalletLock m st
     = (let '(r, x) := nilWalletLock onNil (world st) in
        (outcome_of_nil r,
         {| world := x; events := events st ++ [EvLocalOnly OpLock] |})))
  ∧ router_error (WalletLock m st).1 = false
  ∧ (∀ p, router_error (WalletUnlock m p st).1 = false)
  ∧ (∀ p, router_error (WalletChangePasswd m p st).1 = false)
  ∧ router_error (WalletClearPasswd m st).1 = false
  ∧ router_error (WalletIsLock m st).1 = false
  ∧ (∀ k msg p, router_error (WalletSignMessage2 m k msg p st).1 = false).
Proof.
  intros m. split.
  { unfold WalletLock, forward, method. simpl.
    by destruct (nilWalletLock onNil (world st)). }
  repeat split; intros; apply method_nil_not_router.
Qed.

(** ** Sign and Export *)



Lemma find_error_is_backend (a : address) (wallets : list getif) (st st' : St) e :
  find a wallets st = (Err e, st') → made_by_router e = false.
Proof.
  intros Hf. pose proof (find_spec a wallets st) as Hs. rewrite Hf in Hs.
  by destruct Hs as (be & _ & _ & _ & -> & _).
Qed.

Lemma invoke_not_router {A} (ev : bres A → event) (f : W → bres A * W) (st : St) :
  router_error (invoke ev f st).1 = false.
Proof. unfold invoke. by destruct (f (world st)) as [[?|?] ?]. Qed.




(** ** Enumeration *)

Lemma first_occurrences_elem (l : list address) (x : address) :
  x ∈ first_occurrences l ↔ x ∈ l.
Proof.
  induction l as [|y l IH]; simpl; [done|].
  rewrite !elem_of_cons, list_elem_of_filter, IH.
  destruct (decide (x = y)); tauto.
Qed.

Lemma first_occurrences_NoDup (l : list address) : NoDup (first_occurrences l).
Proof.
  induction l as [|y l IH]; simpl; [constructor|].
  apply NoDup_cons. split.
  - rewrite list_elem_of_filter. intros [Hne _]. by apply Hne.
  - by apply NoDup_filter.
Qed.

(** Addresses of a later list come after those of the earlier ones, and only
    those not seen earlier are added. *)
Lemma first_occurrences_app (l1 l2 : list address) :
  first_occurrences (l1 ++ l2)
  = first_occurrences l1 ++ filter (λ y, y ∉ l1) (first_occurrences l2).
Proof.
  induction l1 as [|x l1 IH]; simpl.
  - induction (first_occurrences l2) as [|y k IHk]; [done|].
    rewrite filter_cons_True by apply not_elem_of_nil. by rewrite <-IHk.
  - rewrite IH, filter_app, list_filter_filter. do 2 f_equal.
    apply list_filter_iff. intros y. rewrite elem_of_cons. tauto.
Qed.

Lemma first_occurrences_snoc (l : list address) (x : address) :
  first_occurrences (l ++ [x])
  = if decide (x ∈ l) then first_occurrences l else first_occurrences l ++ [x].
Proof.
  rewrite first_occurrences_app. simpl. rewrite filter_nil, filter_cons, filter_nil.
  destruct (decide (x ∈ l)).
  - rewrite decide_False by (intros Hn; by apply Hn). by rewrite app_nil_r.
  - by rewrite decide_True.
Qed.

Lemma list_inner_inv (l : list address) acc (L : list address) :
  list_inv acc L → list_inv (list_inner l acc) (L ++ l).
Proof.
  revert acc L. induction l as [|x l IH]; intros [seen out] L [Hseen Hout].
  { by rewrite app_nil_r. }
  unfold list_inner. simpl foldl. fold (list_inner l).
  replace (L ++ x :: l) with ((L ++ [x]) ++ l) by by rewrite <-app_assoc.
  simpl in *. apply IH. destruct (decide (x ∈ seen)) as [Hin|Hnin]; split; simpl.
  - intros y. rewrite elem_of_app, list_elem_of_singleton, <-Hseen.
    split; [by left|]. by intros [?| ->].
  - rewrite first_occurrences_snoc, decide_True; [done|by apply Hseen].
  - intros y. rewrite elem_of_union, elem_of_singleton, elem_of_app,
      list_elem_of_singleton, Hseen. tauto.
  - rewrite first_occurrences_snoc, decide_False by (by rewrite <-Hseen).
    by rewrite Hout.
Qed.

Lemma list_loop_spec (ws : list wallet) acc (L : list address) (st : St) :
  list_inv acc L →
  match list_loop ws acc st with
  | (Ok out, st') =>
      ∃ ls, length ls = length ws
        ∧ events st' = events st ++ zip_with listed ws ls
        ∧ out = mkSlice (first_occurrences (L ++ mjoin (elems <$> ls)))
  | (Err e, st') =>
      ∃ be pre w post ls,
        e = BackendError be ∧ ws = pre ++ w :: post ∧ length ls = length pre
        ∧ events st' = events st ++ zip_with listed pre ls
                                 ++ [EvList (wtag w) (BFail be)]
  | (Fault _, _) => False
  end.
Proof.
  revert acc L st. induction ws as [|w ws IH]; intros acc L st Hinv; simpl.
  { exists []. simpl. rewrite !app_nil_r. split; [done|]. split; [done|].
    by destruct Hinv. }
  unfold mbind, M_bind, invoke.
  destruct (apiWalletList (impl w) (world st)) as [[l|be] x]; simpl.
  - match goal with |- context [list_loop ws ?c ?s] =>
      specialize (IH c (L ++ elems l) s (list_inner_inv _ _ _ Hinv)) end.
    destruct (list_loop ws _ _) as [[out|e|f] st']; simpl in *.
    + destruct IH as (ls & Hlen & -> & ->).
      exists (l :: ls). simpl. rewrite Hlen, <-!app_assoc. done.
    + destruct IH as (be & pre & v & post & ls & -> & -> & Hlen & ->).
      exists be, (w :: pre), v, post, (l :: ls). simpl.
      rewrite Hlen, <-!app_assoc. done.
    + done.
  - exists be, [], w, ws, []. done.
Qed.

(** C7: List asks every configured backend, in the order Remote, Ledger,
    Local.  When all answer, the result is the first occurrences of the
    concatenation of their lists: no address twice, every listed address
    present, Remote's first, then the new ones of Ledger, then the new ones
    of Local.  When a backend's list call fails, that call is the last one
    made and List returns that backend's error and no list. *)
Theorem C7_list_union_first_occurrence (m : MultiWallet) (st : St) :
  let present := omap (wallet_at m) [slotRemote; slotLedger; slotLocal] in
  match WalletList m st with
  | (Ok out, st') =>
      ∃ ls : list (slice address),
        length ls = length present
        ∧ events st' = events st ++ zip_with listed present ls
        ∧ out = mkSlice (first_occurrences (mjoin (elems <$> ls)))
        ∧ NoDup (elems out)
        ∧ (∀ x, x ∈ elems out ↔ ∃ l, l ∈ ls ∧ x ∈ elems l)
  | (Err e, st') =>
      ∃ be pre w post (ls : list (slice address)),
        e = BackendError be ∧ present = pre ++ w :: post ∧ length ls = length pre
        ∧ events st' = events st ++ zip_with listed pre ls
                                 ++ [EvList (wtag w) (BFail be)]
  | (Fault _, _) => False
  end
  ∧ (∀ l1 l2, first_occurrences (l1 ++ l2)
              = first_occurrences l1 ++ filter (λ y, y ∉ l1) (first_occurrences l2)).
Proof.
  intros present. split; [|apply first_occurrences_app].
  unfold WalletList. rewrite nonNil_all. fold present.
  assert (Hinv : list_inv (∅, mkSlice []) []).
  { split; [|done]. intros x. simpl. by rewrite elem_of_empty, elem_of_nil. }
  pose proof (list_loop_spec present (∅, mkSlice []) [] st Hinv) as Hs.
  destruct (list_loop present _ st) as [[out|e|f] st']; [|done|done].
  destruct Hs as (ls & Hlen & Hev & ->).
  - exists ls. simpl. repeat split; try done.
    + apply first_occurrences_NoDup.
    + rewrite first_occurrences_elem, list_elem_of_join.
      intros (l & Hx & (s & -> & Hs)%list_elem_of_fmap). eauto.
    + rewrite first_occurrences_elem, list_elem_of_join.
      intros (s & Hs & Hx). exists (elems s). split; [done|].
      apply list_elem_of_fmap. eauto.
Qed.

(** ** The deletion loop *)

Lemma find_no_fault (a : address) (wallets : list getif) (st : St) f st' :
  find a wallets st ≠ (Fault f, st').
Proof.
  intros Hf. pose proof (find_spec a wallets st) as Hs. by rewrite Hf in Hs.
Qed.

(** One round, by the result of its search and of its backend delete. *)
Lemma delete_round_cases (m : MultiWallet) (a : address) (pass : string) (st : St) :
  match find a [remote m; ledger m; local m] st with
  | (Ok None, st1) => delete_round m a pass st = (Ok true, st1)
  | (Ok (Some w), st1) =>
      match apiWalletDelete (impl w) a pass (world st1) with
      | (BOk u, x) =>
          delete_round m a pass st = (Ok false, after_delete w a pass (BOk u) x st1)
      | (BFail be, x) =>
          delete_round m a pass st
          = (Err (BackendError be), after_delete w a pass (BFail be) x st1)
      end
  | (Err e, st1) => delete_round m a pass st = (Err e, st1)
  | (Fault _, _) => False
  end.
Proof.
  destruct (find a [remote m; ledger m; local m] st) as [[[w|]|e|f] st1] eqn:Hf.
  - destruct (apiWalletDelete (impl w) a pass (world st1)) as [[u|be] x] eqn:Hd;
      search_known Hf; unfold invoke; by rewrite Hd.
  - by search_known Hf.
  - by search_known Hf.
  - by apply find_no_fault in Hf.
Qed.

Lemma WalletDelete_fuel_run (m : MultiWallet) (a : address) (pass : string)
    (fuel : nat) (st : St) r st' :
  WalletDelete_fuel fuel m a pass st = Some (r, st') → delete_run m a pass st r st'.
Proof.
  revert st. induction fuel as [|fuel IH]; intros st; simpl; [done|].
  pose proof (delete_round_cases m a pass st) as Hr.
  destruct (find a [remote m; ledger m; local m] st) as [[[w|]|e|f] st1] eqn:Hf;
    [| | |done].
  - destruct (apiWalletDelete (impl w) a pass (world st1)) as [[u|be] x] eqn:Hd;
      rewrite Hr.
    + intros Hrest. eapply delete_again; eauto.
    + intros [= <- <-]. by eapply delete_backend_failed.
  - rewrite Hr. intros [= <- <-]. by apply delete_no_owner.
  - rewrite Hr. intros [= <- <-]. by apply delete_search_failed.
Qed.

Lemma delete_run_fuel (m : MultiWallet) (a : address) (pass : string)
    (st : St) r st' :
  delete_run m a pass st r st' →
  ∃ fuel, WalletDelete_fuel fuel m a pass st = Some (r, st').
Proof.
  induction 1 as [st st1 Hf|st e st1 Hf|st w st1 be x Hf Hd
                  |st w st1 u x r st3 Hf Hd _ [fuel IH]].
  - exists 1. simpl. pose proof (delete_round_cases m a pass st) as Hr.
    rewrite Hf in Hr. by rewrite Hr.
  - exists 1. simpl. pose proof (delete_round_cases m a pass st) as Hr.
    rewrite Hf in Hr. by rewrite Hr.
  - exists 1. simpl. pose proof (delete_round_cases m a pass st) as Hr.
    rewrite Hf, Hd in Hr. by rewrite Hr.
  - exists (S fuel). simpl. pose proof (delete_round_cases m a pass st) as Hr.
    rewrite Hf, Hd in Hr. by rewrite Hr.
Qed.

(** More fuel does not change a result. *)
Lemma WalletDelete_fuel_mono (m : MultiWallet) (a : address) (pass : string)
    (fuel fuel' : nat) (st : St) r :
  fuel ≤ fuel' →
  WalletDelete_fuel fuel m a pass st = Some r →
  WalletDelete_fuel fuel' m a pass st = Some r.
Proof.
  revert fuel' st. induction fuel as [|fuel IH]; intros fuel' st Hle; [done|].
  destruct fuel' as [|fuel']; [lia|]. simpl.
  destruct (delete_round m a pass st) as [[[|]|e|f] st1]; try done.
  apply IH. lia.
Qed.

(** *** The loop, from the answers of the backends *)

Lemma after_delete_logged (a : address) (pass : string) (pre : list wallet)
    (w : wallet) (r : bres unit) (x2 x3 : W) (st : St) :
  after_delete w a pass r x3
    (logged st x2 ((has_false a <$> pre) ++ [EvHas (wtag w) a (BOk true)]))
  = logged st x3 (round_log a pass pre w r).
Proof.
  unfold after_delete, logged, round_log. simpl. by rewrite <-!app_assoc.
Qed.

Lemma deletes_run (m : MultiWallet) (a : address) (pass : string)
    (st : St) r st' :
  deletes m a pass st r st' → delete_run m a pass st r st'.
Proof.
  induction 1 as [st x1 Hall|st pre w post x1 be x2 Hsplit Hall Hhas
                  |st pre w post x1 x2 be x3 Hsplit Hall Hhas Hdel
                  |st pre w post x1 x2 u x3 r st' Hsplit Hall Hhas Hdel _ IH].
  - apply delete_no_owner. rewrite find_all.
    by apply find_loop_none with (x := world st).
  - apply delete_search_failed. rewrite find_all, Hsplit.
    rewrite (find_loop_reaches a pre w post _ x1 Hall st eq_refl).
    by rewrite Hhas.
  - rewrite <-(after_delete_logged a pass pre w (BFail be) x2 x3 st).
    apply delete_backend_failed; [|exact Hdel]. rewrite find_all, Hsplit.
    rewrite (find_loop_reaches a pre w post _ x1 Hall st eq_refl).
    by rewrite Hhas.
  - rewrite <-(after_delete_logged a pass pre w (BOk u) x2 x3 st) in IH.
    apply (delete_again m a pass st w
             (logged st x2 ((has_false a <$> pre) ++ [EvHas (wtag w) a (BOk true)]))
             u x3 r st'); [|exact Hdel|exact IH].
    rewrite find_all, Hsplit.
    rewrite (find_loop_reaches a pre w post _ x1 Hall st eq_refl).
    by rewrite Hhas.
Qed.

Lemma run_deletes (m : MultiWallet) (a : address) (pass : string)
    (st : St) r st' :
  delete_run m a pass st r st' → deletes m a pass st r st'.
Proof.
  induction 1 as [st st1 Hf|st e st1 Hf|st w st1 be x Hf Hd
                  |st w st1 u x r st3 Hf Hd _ IH];
    rewrite find_all in Hf;
    destruct (find_loop_cases a (configured m) st)
      as [(x1 & Hall & Hc)|[(pre & v & post & x1 & x2 & Hsplit & Hall & Hv & Hc)
         |(pre & v & post & x1 & be' & x2 & Hsplit & Hall & Hv & Hc)]];
    rewrite Hc in Hf; simplify_eq.
  - by apply deletes_no_owner.
  - by eapply deletes_search_failed.
  - rewrite after_delete_logged. by eapply deletes_backend_failed.
  - rewrite after_delete_logged in IH. by eapply deletes_again.
Qed.

(** C5: Delete is the loop "ask the configured backends for the owner in the
    order Remote, Ledger, Local; no owner: return success; owner: delete
    there and start again from the first backend", stopped by the first
    failing HasKey or backend delete, whose error it returns.  Its results
    are exactly those of that description, stated on the answers of the
    backends; it returns success or an error, nothing in between; and when
    every configured backend answers false at the first resolution it
    returns success there, with no backend delete made. *)
Theorem C5_delete_loop (m : MultiWallet) (a : address) (pass : string) (st : St) :
  (∀ r st', WalletDelete m a pass st r st' ↔ deletes m a pass st r st')
  ∧ (∀ x1, all_false a (omap (wallet_at m) [slotRemote; slotLedger; slotLocal])
                     (world st) x1 →
       ∀ fuel,
         WalletDelete_fuel (S fuel) m a pass st
         = Some (Ok (),
                 logged st x1
                   (has_false a
                      <$> omap (wallet_at m) [slotRemote; slotLedger; slotLocal])))
  ∧ (∀ r st', WalletDelete m a pass st r st' ↔ delete_run m a pass st r st')
  ∧ (∀ r st', WalletDelete m a pass st r st' → r = Ok () ∨ ∃ e, r = Err e)
  ∧ (∀ r1 st1 r2 st2, WalletDelete m a pass st r1 st1 →
       WalletDelete m a pass st r2 st2 → r1 = r2 ∧ st1 = st2)
  ∧ (∀ st1, find a [remote m; ledger m; local m] st = (Ok None, st1) →
       ∀ fuel, WalletDelete_fuel (S fuel) m a pass st = Some (Ok (), st1)).
Proof.
  split; [|split; [|split; [|split; [|split]]]].
  - intros r st'. split.
    + intros [fuel Hrun]. by apply run_deletes, (WalletDelete_fuel_run _ _ _ fuel).
    + intros Hd. by apply delete_run_fuel, deletes_run.
  - intros x1 Hall fuel. simpl.
    pose proof (delete_round_cases m a pass st) as Hr.
    rewrite find_all in Hr.
    rewrite (find_loop_none a (configured m) _ x1 Hall st eq_refl) in Hr.
    by rewrite Hr.
  - intros r st'. split.
    + intros [fuel Hrun]. by eapply WalletDelete_fuel_run.
    + apply delete_run_fuel.
  - intros r st' [fuel Hrun]. apply WalletDelete_fuel_run in Hrun.
    induction Hrun; eauto.
  - intros r1 st1 r2 st2 [f1 H1] [f2 H2].
    apply (WalletDelete_fuel_mono _ _ _ _ (f1 `max` f2)) in H1; [|lia].
    apply (WalletDelete_fuel_mono _ _ _ _ (f1 `max` f2)) in H2; [|lia].
    rewrite H1 in H2. by injection H2.
  - intros st1 Hf fuel. simpl.
    pose proof (delete_round_cases m a pass st) as Hr.
    rewrite Hf in Hr. by rewrite Hr.
Qed.

(** *** Convergence *)

Lemma filter_length_lt {A} (P Q : A → Prop) `{∀ x, Decision (P x)}
    `{∀ x, Decision (Q x)} (l : list A) (y : A) :
  (∀ x, x ∈ l → Q x → P x) → y ∈ l → P y → ¬ Q y →
  length (filter Q l) < length (filter P l).
Proof.
  intros Himp Hy HP HQ.
  assert (Hle : ∀ k : list A, (∀ x, x ∈ k → Q x → P x) →
                 length (filter Q k) ≤ length (filter P k)).
  { induction k as [|x k IH]; intros Hk; [done|].
    rewrite !filter_cons.
    assert (length (filter Q k) ≤ length (filter P k))
      by (apply IH; intros; apply Hk; [by right|done]).
    destruct (decide (Q x)) as [HQx|]; destruct (decide (P x)) as [|HPx]; simpl;
      try lia.
    destruct HPx. apply Hk; [by left|done]. }
  induction l as [|x l IH]; [by apply elem_of_nil in Hy|].
  rewrite !filter_cons.
  assert (length (filter Q l) ≤ length (filter P l))
    by (apply Hle; intros; apply Himp; [by right|done]).
  apply elem_of_cons in Hy as [<-|Hy].
  - rewrite (decide_True (P:=P y)), (decide_False (P:=Q y)) by done. simpl. lia.
  - assert (length (filter Q l) < length (filter P l))
      by (apply IH; [intros; apply Himp; [by right|done]|done]).
    destruct (decide (Q x)) as [HQx|]; destruct (decide (P x)) as [|HPx]; simpl;
      try lia.
    destruct HPx. apply Himp; [by left|done].
Qed.

Lemma filter_none {A} (P : A → Prop) `{∀ x, Decision (P x)} (l : list A) :
  (∀ x, x ∈ l → ¬ P x) → filter P l = [].
Proof.
  induction l as [|x l IH]; intros Hno; [done|].
  rewrite filter_cons, decide_False by (apply Hno; by left).
  apply IH. intros y Hy. apply Hno. by right.
Qed.

Section Convergence.

Variables (m : MultiWallet) (a : address) (pass : string).

Let present := nonNil [remote m; ledger m; local m].

(** A HasKey call changes no configured backend's claim on [a]. *)
Hypothesis has_keeps_claims : ∀ w v x,
  w ∈ present → v ∈ present →
  claims a v (apiWalletHas (impl w) a x).2 = claims a v x.

(** A successful backend delete removes that backend's claim on [a] and
    creates no claim. *)
Hypothesis delete_removes_claim : ∀ w x u x',
  w ∈ present → apiWalletDelete (impl w) a pass x = (BOk u, x') →
  claims a w x' = false
  ∧ ∀ v, v ∈ present → claims a v x' = true → claims a v x = true.

(** The search seen from the world: what its result says about the claims,
    which it leaves as they were. *)
Lemma find_loop_claims (ws : list wallet) (st : St) :
  ws ⊆ present →
  let '(r, st') := find_loop a ws st in
  (∀ v, v ∈ present → claims a v (world st') = claims a v (world st))
  ∧ match r with
    | Ok (Some w) => w ∈ ws ∧ claims a w (world st) = true
    | Ok None => ∀ w, w ∈ ws → claims a w (world st) = false
    | Err _ => ∃ w x be, w ∈ ws ∧ (apiWalletHas (impl w) a x).1 = BFail be
    | Fault _ => False
    end.
Proof.
  revert st. induction ws as [|w ws IH]; intros st Hsub; simpl.
  { split; [done|]. by intros w ?%elem_of_nil. }
  assert (Hw : w ∈ present) by (apply Hsub; by left).
  assert (Hws : ws ⊆ present) by (intros v Hv; apply Hsub; by right).
  unfold mbind, M_bind, invoke.
  pose proof (λ v Hv, has_keeps_claims w v (world st) Hw Hv) as Hkeep.
  assert (Hcl := eq_refl (claims a w (world st))). unfold claims at 1 in Hcl.
  destruct (apiWalletHas (impl w) a (world st)) as [[have|be] x] eqn:Hhas;
    simpl in *.
  - destruct have; simpl.
    + split; [done|]. split; [by left|done].
    + match goal with |- context [find_loop a ws ?s] => specialize (IH s Hws) end.
      destruct (find_loop a ws _) as [[[v|]|e|f] st']; simpl in *.
      * destruct IH as (Hk & Hv & Hc). split; [intros; by rewrite Hk, Hkeep|].
        split; [by right|]. by rewrite <-Hkeep by (by apply Hws).
      * destruct IH as (Hk & Hnone). split; [intros; by rewrite Hk, Hkeep|].
        intros v [->|Hv]%elem_of_cons; [done|].
        by rewrite <-Hkeep, Hnone by (by apply Hws || done).
      * destruct IH as (Hk & v & y & be & Hv & Hfail).
        split; [intros; by rewrite Hk, Hkeep|].
        exists v, y, be. split; [by right|done].
      * by destruct IH.
  - split; [done|]. exists w, (world st), be. split; [by left|]. by rewrite Hhas.
Qed.

Lemma find_claims (st : St) :
  let '(r, st') := find a [remote m; ledger m; local m] st in
  (∀ v, v ∈ present → claims a v (world st') = claims a v (world st))
  ∧ match r with
    | Ok (Some w) => w ∈ present ∧ claims a w (world st) = true
    | Ok None => ∀ w, w ∈ present → claims a w (world st) = false
    | Err _ => ∃ w x be, w ∈ present ∧ (apiWalletHas (impl w) a x).1 = BFail be
    | Fault _ => False
    end.
Proof. by apply find_loop_claims. Qed.

Lemma no_claim_converged (st' : St) :
  (∀ v, v ∈ present → claims a v (world st') = false) → converged m a st'.
Proof.
  intros Hnone. split; [done|]. split; [|split].
  - unfold claimants. fold present.
    rewrite filter_none; [done|]. intros v Hv. by rewrite Hnone.
  - pose proof (find_claims st') as Hc. unfold WalletHas, mbind, M_bind.
    destruct (find a [remote m; ledger m; local m] st') as [[[w|]|e|f] st2];
      simpl; try done.
    destruct Hc as (_ & Hw & Hcl). by rewrite Hnone in Hcl.
  - intros Hnofail. pose proof (find_claims st') as Hc.
    unfold WalletHas, mbind, M_bind.
    destruct (find a [remote m; ledger m; local m] st') as [[[w|]|e|f] st2];
      simpl; try done.
    + destruct Hc as (_ & Hw & Hcl). by rewrite Hnone in Hcl.
    + destruct Hc as (_ & w & x & be & Hw & Hfail). by apply Hnofail in Hfail.
    + by destruct Hc.
Qed.

Lemma delete_converges_fuel (fuel : nat) (st : St) :
  claimants m a (world st) < fuel →
  ∃ r st', WalletDelete_fuel fuel m a pass st = Some (r, st')
           ∧ (r = Ok () → converged m a st').
Proof.
  revert st. induction fuel as [|fuel IH]; intros st Hlt; [lia|]. simpl.
  pose proof (delete_round_cases m a pass st) as Hr.
  pose proof (find_claims st) as Hc.
  destruct (find a [remote m; ledger m; local m] st) as [[[w|]|e|f] st1] eqn:Hf;
    [| | |done].
  - destruct Hc as (Hkeep & Hw & Hcl).
    destruct (apiWalletDelete (impl w) a pass (world st1)) as [[u|be] x] eqn:Hd;
      rewrite Hr; [|by eexists _, _].
    destruct (delete_removes_claim w (world st1) u x Hw Hd) as (Hgone & Hothers).
    apply IH. simpl.
    assert (claimants m a x < claimants m a (world st)); [|lia].
    unfold claimants. fold present.
    apply (filter_length_lt _ _ _ w); [|done|done|by rewrite Hgone].
    intros v Hv Hx. rewrite <-Hkeep by done. by apply Hothers.
  - rewrite Hr. eexists _, _. split; [done|]. intros _.
    apply no_claim_converged. destruct Hc as (Hkeep & Hnone).
    intros v Hv. by rewrite Hkeep, Hnone.
  - rewrite Hr. by eexists _, _.
Qed.

Lemma claimants_le_3 (x : W) : claimants m a x ≤ 3.
Proof.
  unfold claimants. etrans; [apply length_filter|].
  simpl. repeat case_match; simpl; lia.
Qed.

End Convergence.

(** C6: suppose, for the address being deleted, that a HasKey call changes no
    configured backend's claim and that a successful backend delete removes
    that backend's claim and adds none, where the configured backends are
    the non-nil ones among Remote, Ledger and Local.  Then Delete returns: one
    round more than the number of claiming backends is enough, so four rounds
    always are.  When it returns success no configured backend claims the
    address and Has does not report true: it reports false, with an error
    only if a HasKey call fails at that time.  This holds however many
    backends claimed the address at the start. *)
Theorem C6_delete_converges (m : MultiWallet) (a : address) (pass : string)
    (st : St) :
  let present := omap (wallet_at m) [slotRemote; slotLedger; slotLocal] in
  let claiming (x : W) := length (filter (λ w, claims a w x = true) present) in
  (∀ w v x, w ∈ present → v ∈ present →
     claims a v (apiWalletHas (impl w) a x).2 = claims a v x) →
  (∀ w x u x', w ∈ present → apiWalletDelete (impl w) a pass x = (BOk u, x') →
     claims a w x' = false
     ∧ ∀ v, v ∈ present → claims a v x' = true → claims a v x = true) →
  ∃ r st',
    WalletDelete_fuel (S (claiming (world st))) m a pass st = Some (r, st')
    ∧ WalletDelete_fuel 4 m a pass st = Some (r, st')
    ∧ WalletDelete m a pass st r st'
    ∧ (r = Ok () →
       (∀ v, v ∈ present → claims a v (world st') = false)
       ∧ claiming (world st') = 0
       ∧ (WalletHas m a st').1 ≠ Ok true
       ∧ ((∀ v x be, v ∈ present → (apiWalletHas (impl v) a x).1 ≠ BFail be) →
          (WalletHas m a st').1 = Ok false)).
Proof.
  intros present claiming Hhas Hdel.
  assert (Hpresent : nonNil [remote m; ledger m; local m] = present)
    by apply nonNil_all.
  assert (Hclaiming : ∀ x, claimants m a x = claiming x).
  { intros x. unfold claimants, claiming. by rewrite Hpresent. }
  rewrite <-Hpresent in Hhas, Hdel.
  destruct (delete_converges_fuel m a pass Hhas Hdel
              (S (claimants m a (world st))) st) as (r & st' & Hrun & Hconv); [lia|].
  exists r, st'. rewrite <-!Hclaiming.
  split; [done|]. split; [|split; [by eexists|]].
  - eapply WalletDelete_fuel_mono; [|done].
    pose proof (claimants_le_3 m a (world st)). lia.
  - intros Hr. specialize (Hconv Hr). unfold converged in Hconv.
    by rewrite Hpresent in Hconv.
Qed.

(** ** No backend configured, and a nil key info *)

(** C9: with no backend configured List returns the empty, non-nil slice
    without an error and without a backend call, and the searches of
    Has/Sign/Delete and of Export return "no owner" without an error. *)
Theorem C9_no_backend_list_and_find (a : address) (st : St) :
  let m := {| Local := None; Remote := None; Ledger := None |} in
  WalletList m st = (Ok (mkSlice []), st)
  ∧ mkSlice [] ≠ @nilSlice address
  ∧ length (elems (@mkSlice address [])) = 0
  ∧ find a [remote m; ledger m; local m] st = (Ok None, st)
  ∧ find a [remote m; local m] st = (Ok None, st)
  ∧ WalletHas m a st = (Ok false, st).
Proof. repeat split; done. Qed.

(** C10: Import reads [info.Type] before anything else: on a nil [info] it
    panics on that read whatever the backends are, with no backend called
    and no error returned; on a non-nil [info] the read succeeds and Import
    does not panic. *)
Theorem C10_import_dereferences_info (m : MultiWallet) (st : St) :
  WalletImport m None st = (Fault NilDeref, st)
  ∧ (∀ ki f, (WalletImport m (Some ki) st).1 ≠ Fault f)
  ∧ (∀ ki : KeyInfo, deref (Some ki) st = (Ok ki, st)).
Proof.
  split; [done|]. split; [|done].
  intros ki f.
  rewrite WalletImport_route.
  destruct (route m (KeyInfo_Type ki)) as [w|]; [|done].
  unfold invoke. by destruct (apiWalletImport _ _ _) as [[?|?] ?].
Qed.

(** ** Further properties of the router *)

(** X1: [nonNil] keeps exactly the backends of its argument whose pointer is
    not nil, each once, in the order given and with its slot; [firstNonNil]
    returns the first of them, and nil exactly when there is none. *)
Lemma firstNonNil_head_nonNil (wallets : list getif) :
  let kept := omap (λ g, (λ b, {| wtag := tag g; impl := b |}) <$> Get g) wallets in
  nonNil wallets = kept
  ∧ firstNonNil wallets = head kept
  ∧ (firstNonNil wallets = None ↔ ∀ g, g ∈ wallets → Get g = None)
  ∧ (∀ w, w ∈ nonNil wallets ↔
       ∃ g, g ∈ wallets ∧ Get g = Some (impl w) ∧ tag g = wtag w)
  ∧ length (nonNil wallets) ≤ length wallets.
Proof.
  induction wallets as [|g rest (IH1 & IH2 & IH3 & IH4 & IH5)]; simpl.
  { split; [done|]. split; [done|]. split.
    - split; [|done]. by intros _ g ?%elem_of_nil.
    - split; [|done]. intros w. split; [by intros ?%elem_of_nil|].
      by intros (g & ?%elem_of_nil & _). }
  destruct (Get g) as [b|] eqn:Hg; simpl.
  - split; [by rewrite IH1|]. split; [done|]. split; [|split; [|lia]].
    + split; [done|]. intros Hnone.
      assert (Hin : g ∈ g :: rest) by (by left).
      specialize (Hnone g Hin). by rewrite Hg in Hnone.
    + intros w. rewrite elem_of_cons, IH4. split.
      * intros [->|(g' & Hin & Hget & Htag)].
        -- exists g. split; [by left|done].
        -- exists g'. split; [by right|done].
      * intros (g' & [->|Hin]%elem_of_cons & Hget & Htag).
        -- left. destruct w as [s b']. simpl in *. rewrite Hg in Hget.
           by simplify_eq.
        -- right. by exists g'.
  - split; [done|]. split; [done|]. split; [|split; [|lia]].
    + rewrite IH3. split.
      * intros Hrest g' [->|Hin]%elem_of_cons; [done|by apply Hrest].
      * intros Hall g' Hin. apply Hall. by right.
    + intros w. rewrite IH4. split.
      * intros (g' & Hin & Hget & Htag). exists g'. split; [by right|done].
      * intros (g' & [->|Hin]%elem_of_cons & Hget & Htag).
        -- by rewrite Hg in Hget.
        -- by exists g'.
Qed.

(** The slot a request of key type [kt] may go to besides Remote. *)
Lemma route_slot (m : MultiWallet) (kt : KeyType) (w : wallet) :
  route m kt = Some w →
  backend_at m (wtag w) = Some (impl w)
  ∧ (wtag w = slotRemote
     ∨ (Remote m = None
        ∧ wtag w = if decide (kt = KTSecp256k1Ledger) then slotLedger else slotLocal)).
Proof.
  unfold route, wallet_at. simpl. destruct (Remote m) as [r|] eqn:Hr; simpl.
  - intros [= <-]. simpl. split; [done|]. by left.
  - destruct (decide (kt = KTSecp256k1Ledger)); simpl.
    + destruct (Ledger m) as [l|] eqn:Hl; simpl; [|done].
      intros [= <-]. simpl. split; [done|]. by right.
    + destruct (Local m) as [l|] eqn:Hl; simpl; [|done].
      intros [= <-]. simpl. rewrite Hl. split; [done|]. by right.
Qed.

(** X2: New and Import make at most one backend call, never a HasKey call; the
    call is on Remote, or, with Remote nil, on the Ledger for the hardware
    key type and on Local for any other.  A hardware-type request never
    reaches Local and any other never reaches the Ledger. *)
Theorem new_import_one_call (m : MultiWallet) (kt : KeyType) (ki : KeyInfo)
    (st : St) :
  let allowed (k : KeyType) (s : slot) :=
    s = slotRemote
    ∨ (Remote m = None
       ∧ s = if decide (k = KTSecp256k1Ledger) then slotLedger else slotLocal) in
  (∃ evs, events (WalletNew m kt st).2 = events st ++ evs
          ∧ (evs = [] ∧ (WalletNew m kt st) = (Err (ErrNoBackendForKeyType kt), st)
             ∨ ∃ s r, evs = [EvNew s kt r] ∧ allowed kt s
                      ∧ (WalletNew m kt st).1 = outcome_of r))
  ∧ (∃ evs, events (WalletImport m (Some ki) st).2 = events st ++ evs
          ∧ (evs = [] ∧ WalletImport m (Some ki) st = (Err ErrNoBackendsConfigured, st)
             ∨ ∃ s r, evs = [EvImport s ki r] ∧ allowed (KeyInfo_Type ki) s
                      ∧ (WalletImport m (Some ki) st).1 = outcome_of r)).
Proof.
  intros allowed. split.
  - rewrite WalletNew_route.
    destruct (route m kt) as [w|] eqn:Hroute.
    + destruct (route_slot m kt w Hroute) as (_ & Hslot).
      unfold invoke. destruct (apiWalletNew (impl w) kt (world st)) as [r x].
      exists [EvNew (wtag w) kt r]. split; [by destruct r|]. right.
      exists (wtag w), r. split; [done|]. split; [exact Hslot|]. by destruct r.
    + exists []. rewrite app_nil_r. split; [done|]. by left.
  - rewrite WalletImport_route.
    destruct (route m (KeyInfo_Type ki)) as [w|] eqn:Hroute.
    + destruct (route_slot m _ w Hroute) as (_ & Hslot).
      unfold invoke. destruct (apiWalletImport (impl w) ki (world st)) as [r x].
      exists [EvImport (wtag w) ki r]. split; [by destruct r|]. right.
      exists (wtag w), r. split; [done|]. split; [exact Hslot|]. by destruct r.
    + exists []. rewrite app_nil_r. split; [done|]. by left.
Qed.

(** *** The log of a deletion *)

Lemma guarded_app (a : address) (pass : string) (l1 l2 : list event) :
  guarded a pass l1 → guarded a pass l2 → guarded a pass (l1 ++ l2).
Proof.
  induction 1 as [|s r evs _ IH|ev evs Hev _ IH]; intros H2; simpl.
  - done.
  - apply guarded_delete. by apply IH.
  - apply guarded_other; [done|]. by apply IH.
Qed.

Lemma guarded_has_false (a : address) (pass : string) (ws : list wallet) :
  guarded a pass (has_false a <$> ws).
Proof.
  induction ws as [|w ws IH]; csimpl; [constructor|].
  by apply guarded_other.
Qed.

Lemma guarded_round (a : address) (pass : string) (pre : list wallet)
    (w : wallet) (r : bres unit) :
  guarded a pass (round_log a pass pre w r).
Proof.
  apply guarded_app; [apply guarded_has_false|].
  apply guarded_delete. constructor.
Qed.

Lemma delete_log_guarded (m : MultiWallet) (a : address) (pass : string) r evs :
  delete_log m a pass r evs → guarded a pass evs.
Proof.
  induction 1 as [|be pre w post _|be pre w post _|pre w post u r evs _ _ IH].
  - apply guarded_has_false.
  - apply guarded_app; [apply guarded_has_false|].
    apply guarded_other; [done|constructor].
  - apply guarded_round.
  - apply guarded_app; [apply guarded_round|done].
Qed.

Lemma guarded_lookup (a : address) (pass : string) (evs : list event) :
  guarded a pass evs →
  ∀ i s a' p r, evs !! i = Some (EvDelete s a' p r) →
    ∃ j, i = S j ∧ evs !! j = Some (EvHas s a (BOk true)) ∧ a' = a ∧ p = pass.
Proof.
  induction 1 as [|s0 r0 evs _ IH|ev evs Hev _ IH]; intros i s a' p r Hi.
  - by rewrite lookup_nil in Hi.
  - destruct i as [|[|k]]; simpl in Hi.
    + done.
    + injection Hi as -> -> -> ->. by exists 0.
    + destruct (IH k s a' p r Hi) as (j & -> & Hj & -> & ->).
      by exists (S (S j)).
  - destruct i as [|k]; simpl in Hi.
    + injection Hi as ->. by destruct (Hev s a' p r).
    + destruct (IH k s a' p r Hi) as (j & -> & Hj & -> & ->).
      by exists (S j).
Qed.

Lemma delete_run_log (m : MultiWallet) (a : address) (pass : string)
    (st : St) r st' :
  delete_run m a pass st r st' →
  ∃ evs, events st' = events st ++ evs ∧ delete_log m a pass r evs.
Proof.
  induction 1 as [st st1 Hf|st e st1 Hf|st w st1 be x Hf Hd
                  |st w st1 u x r st3 Hf Hd _ (evs & Hev & Hlog)];
    pose proof (find_spec a [remote m; ledger m; local m] st) as Hs;
    rewrite Hf in Hs.
  - eexists. split; [exact Hs|]. constructor.
  - destruct Hs as (be & pre & w & post & -> & Hsplit & ->).
    eexists. split; [done|]. by eapply log_search_failed.
  - destruct Hs as (pre & post & Hsplit & Hev). simpl. rewrite Hev.
    exists (round_log a pass pre w (BFail be)).
    split; [unfold round_log; by rewrite <-!app_assoc|].
    by eapply log_delete_failed.
  - destruct Hs as (pre & post & Hsplit & Hev1). simpl in Hev.
    rewrite Hev, Hev1.
    exists (round_log a pass pre w (BOk u) ++ evs).
    split; [unfold round_log; by rewrite <-!app_assoc|]. by eapply log_round.
Qed.

Lemma delete_log_success_ends (m : MultiWallet) (a : address) (pass : string)
    r evs :
  delete_log m a pass r evs → r = Ok () →
  ∃ rounds, evs = rounds
                  ++ (has_false a <$> nonNil [remote m; ledger m; local m]).
Proof.
  induction 1 as [|be pre w post _|be pre w post _|pre w post u r evs _ _ IH];
    intros Hr; try done.
  - by exists [].
  - destruct (IH Hr) as (rounds & ->). eexists. by rewrite app_assoc.
Qed.

(** X3: every backend delete made by [WalletDelete] is for the address and
    passphrase it was given and comes right after that same backend's HasKey
    answered true: no backend is asked to delete a key it did not just
    claim, and the first call of a run is never a delete. *)
Theorem delete_calls_follow_claim (m : MultiWallet) (a : address)
    (pass : string) (st : St) (r : outcome unit) (st' : St) :
  WalletDelete m a pass st r st' →
  ∃ evs, events st' = events st ++ evs
    ∧ ∀ i s a' p rd, evs !! i = Some (EvDelete s a' p rd) →
        ∃ j, i = S j ∧ evs !! j = Some (EvHas s a (BOk true))
             ∧ a' = a ∧ p = pass.
Proof.
  intros [fuel Hrun]. apply WalletDelete_fuel_run in Hrun.
  destruct (delete_run_log m a pass st r st' Hrun) as (evs & Hev & Hlog).
  exists evs. split; [done|].
  apply guarded_lookup. by eapply delete_log_guarded.
Qed.

(** X4: the calls of a returned [WalletDelete] are a sequence of rounds, each a
    search ending in a true answer followed by that backend's delete, closed
    by the search or delete that ended the loop; a successful run ends with
    every configured backend, in the order Remote, Ledger, Local, answering
    false. *)
Theorem delete_success_ends_unclaimed (m : MultiWallet) (a : address)
    (pass : string) (st : St) (r : outcome unit) (st' : St) :
  WalletDelete m a pass st r st' →
  ∃ evs, events st' = events st ++ evs
    ∧ delete_log m a pass r evs
    ∧ (r = Ok () →
       ∃ rounds, evs = rounds
         ++ (has_false a <$> omap (wallet_at m) [slotRemote; slotLedger; slotLocal])).
Proof.
  intros [fuel Hrun]. apply WalletDelete_fuel_run in Hrun.
  destruct (delete_run_log m a pass st r st' Hrun) as (evs & Hev & Hlog).
  exists evs. split; [done|]. split; [done|].
  intros Hr. rewrite <-nonNil_all. by eapply delete_log_success_ends.
Qed.

(** *** Has, then Sign *)

(** X5: when HasKey calls change no backend's claim on [a], the answer of Has
    still holds for a Sign made next: after "true" Sign does not answer "key
    not found", after "false" Sign returns an error, its own "key not found"
    or a HasKey failure, and asks no backend to sign. *)
Theorem has_then_sign (m : MultiWallet) (a : address) (st st1 : St) :
  (∀ w v x, w ∈ nonNil [remote m; ledger m; local m] →
            v ∈ nonNil [remote m; ledger m; local m] →
            claims a v (apiWalletHas (impl w) a x).2 = claims a v x) →
  (WalletHas m a st = (Ok true, st1) →
     ∀ msg meta, (WalletSign m a msg meta st1).1 ≠ Err ErrKeyNotFound)
  ∧ (WalletHas m a st = (Ok false, st1) →
     ∀ msg meta, ∃ e,
       WalletSign m a msg meta st1
       = (Err e, (find a [remote m; ledger m; local m] st1).2)
       ∧ (e = ErrKeyNotFound ∨ made_by_router e = false)).
Proof.
  intros Hkeep.
  pose proof (find_claims m a Hkeep st) as Hc.
  pose proof (find_claims m a Hkeep st1) as Hc1.
  pose proof (find_error_is_backend a [remote m; ledger m; local m] st1) as Herr.
  split; intros Hhas; revert Hhas; unfold WalletHas, mbind, M_bind;
    destruct (find a [remote m; ledger m; local m] st) as [[[w|]|e|f] st0];
    simpl; try done; intros [= ->]; intros msg meta.
  - destruct Hc as (Hsame & Hw & Hcl).
    destruct (find a [remote m; ledger m; local m] st1) as [[[v|]|e|f] st2] eqn:Hf;
      search_known Hf; try done.
    + intros Hsign.
      pose proof (invoke_not_router (EvSign (wtag v) a msg meta)
                    (apiWalletSign (impl v) a msg meta) st2) as Hn.
      by rewrite Hsign in Hn.
    + destruct Hc1 as (_ & Hnone). rewrite <-Hsame, Hnone in Hcl; done.
    + intros [= ->]. by specialize (Herr _ _ eq_refl).
  - destruct Hc as (Hsame & Hnone).
    destruct (find a [remote m; ledger m; local m] st1) as [[[v|]|e|f] st2] eqn:Hf;
      search_known Hf.
    + destruct Hc1 as (_ & Hv & Hcl). rewrite Hsame, Hnone in Hcl; done.
    + exists ErrKeyNotFound. split; [done|]. by left.
    + exists e. split; [done|]. right. by eapply Herr.
    + by destruct Hc1.
Qed.

(** *** List without duplicates, and List against Has *)

Lemma filter_ne_not_in (x : address) (l : list address) :
  x ∉ l → filter (λ y, y ≠ x) l = l.
Proof.
  induction l as [|y l IH]; intros Hx; [done|].
  apply not_elem_of_cons in Hx as [Hne Hx].
  rewrite filter_cons_True by done. by rewrite IH.
Qed.

Lemma first_occurrences_NoDup_id (l : list address) :
  NoDup l → first_occurrences l = l.
Proof.
  induction 1 as [|x l Hx _ IH]; simpl; [done|].
  by rewrite IH, filter_ne_not_in.
Qed.

Lemma first_occurrences_length (l : list address) :
  length (first_occurrences l) ≤ length l.
Proof.
  induction l as [|x l IH]; simpl; [done|].
  pose proof (length_filter (λ y, y ≠ x) (first_occurrences l)). lia.
Qed.

(** X6: on success List has asked each configured backend once, never
    returns nil and never more addresses than the backends listed; when no address is listed twice the result is the plain
    concatenation of the backends' lists, in the order Remote, Ledger,
    Local. *)
Theorem list_concatenates_when_distinct (m : MultiWallet) (st : St) :
  match WalletList m st with
  | (Ok out, st') =>
      ∃ ls : list (slice address),
        length ls = length (omap (wallet_at m) [slotRemote; slotLedger; slotLocal])
        ∧ events st'
        = events st
          ++ zip_with listed (omap (wallet_at m) [slotRemote; slotLedger; slotLocal]) ls
        ∧ out ≠ nilSlice
        ∧ length (elems out) ≤ length (mjoin (elems <$> ls))
        ∧ (NoDup (mjoin (elems <$> ls)) → out = mkSlice (mjoin (elems <$> ls)))
  | _ => True
  end.
Proof.
  unfold WalletList. rewrite nonNil_all.
  assert (Hinv : list_inv (∅, mkSlice []) []).
  { split; [|done]. intros x. simpl. by rewrite elem_of_empty, elem_of_nil. }
  pose proof (list_loop_spec
                (omap (wallet_at m) [slotRemote; slotLedger; slotLocal])
                (∅, mkSlice []) [] st Hinv) as Hs.
  destruct (list_loop _ _ st) as [[out|e|f] st']; [|done|done].
  destruct Hs as (ls & Hlen & Hev & ->). exists ls. simpl.
  split; [done|]. split; [done|]. split; [done|]. split.
  - apply first_occurrences_length.
  - intros Hnd. by rewrite first_occurrences_NoDup_id.
Qed.

Section Agreement.

Variables (m : MultiWallet) (a : address).

Let present := nonNil [remote m; ledger m; local m].

(** Every configured backend answers List and HasKey without failing and
    without changing the world, and claims [a] exactly when it lists it. *)
Hypothesis lists_what_it_has : ∀ w x,
  w ∈ present →
  ∃ l, apiWalletList (impl w) x = (BOk l, x)
       ∧ apiWalletHas (impl w) a x = (BOk (bool_decide (a ∈ elems l)), x).

Lemma list_loop_agrees (ws : list wallet) acc (L : list address) (st : St) :
  ws ⊆ present → list_inv acc L →
  ∃ out st', list_loop ws acc st = (Ok out, st')
    ∧ world st' = world st
    ∧ (a ∈ elems out ↔ a ∈ L ∨ ∃ w, w ∈ ws ∧ claims a w (world st) = true).
Proof.
  revert acc L st. induction ws as [|w ws IH]; intros acc L st Hsub Hinv; simpl.
  { exists acc.2, st. split; [done|]. split; [done|].
    destruct Hinv as [_ ->]. simpl. rewrite first_occurrences_elem.
    split; [by left|]. intros [?|(w & ?%elem_of_nil & _)]; done. }
  assert (Hw : w ∈ present) by (apply Hsub; by left).
  assert (Hws : ws ⊆ present) by (intros v Hv; apply Hsub; by right).
  destruct (lists_what_it_has w (world st) Hw) as (l & Hlist & Hhas).
  unfold mbind, M_bind, invoke. rewrite Hlist. simpl.
  match goal with |- context [list_loop ws ?c ?s] =>
    destruct (IH c (L ++ elems l) s Hws (list_inner_inv _ _ _ Hinv))
      as (out & st' & -> & Hworld & Hin) end.
  exists out, st'. split; [done|]. split; [done|].
  simpl in Hin. rewrite Hin, elem_of_app.
  assert (Hcl : claims a w (world st) = true ↔ a ∈ elems l).
  { unfold claims. rewrite Hhas. simpl. destruct (decide (a ∈ elems l)).
    - by rewrite bool_decide_true.
    - by rewrite bool_decide_false. }
  split.
  - intros [[?|Hl]|(v & Hv & Hc)]; [by left| |].
    + right. exists w. split; [by left|]. by apply Hcl.
    + right. exists v. split; [by right|done].
  - intros [?|(v & [->|Hv]%elem_of_cons & Hc)]; [by left; left| |].
    + left; right. by apply Hcl.
    + right. by exists v.
Qed.

Lemma find_loop_world_kept (ws : list wallet) (st : St) :
  ws ⊆ present → world (find_loop a ws st).2 = world st.
Proof.
  revert st. induction ws as [|w ws IH]; intros st Hsub; simpl; [done|].
  assert (Hw : w ∈ present) by (apply Hsub; by left).
  assert (Hws : ws ⊆ present) by (intros v Hv; apply Hsub; by right).
  destruct (lists_what_it_has w (world st) Hw) as (l & _ & Hhas).
  unfold mbind, M_bind, invoke. rewrite Hhas. simpl.
  destruct (bool_decide (a ∈ elems l)); simpl; [done|].
  match goal with |- context [find_loop a ws ?s] => by rewrite (IH s Hws) end.
Qed.

Lemma agreement_keeps_claims (w v : wallet) (x : W) :
  w ∈ present → v ∈ present →
  claims a v (apiWalletHas (impl w) a x).2 = claims a v x.
Proof.
  intros Hw _. destruct (lists_what_it_has w x Hw) as (l & _ & Hhas).
  by rewrite Hhas.
Qed.

Lemma list_agrees_with_has (st : St) :
  ∃ out stL stH,
    WalletList m st = (Ok out, stL)
    ∧ WalletHas m a st = (Ok (bool_decide (a ∈ elems out)), stH)
    ∧ world stL = world st ∧ world stH = world st.
Proof.
  assert (Hinv : list_inv (∅, mkSlice []) []).
  { split; [|done]. intros x. simpl. by rewrite elem_of_empty, elem_of_nil. }
  destruct (list_loop_agrees present (∅, mkSlice []) [] st (reflexivity _) Hinv)
    as (out & stL & HL & HwL & Hin).
  pose proof (find_claims m a agreement_keeps_claims st) as Hc.
  pose proof (find_loop_world_kept present st (reflexivity _)) as HwH.
  fold (find a [remote m; ledger m; local m] st) in HwH.
  exists out, stL, (find a [remote m; ledger m; local m] st).2.
  split; [exact HL|]. split; [|done].
  unfold WalletHas, mbind, M_bind.
  destruct (find a [remote m; ledger m; local m] st) as [[[w|]|e|f] st0];
    simpl in *.
  - destruct Hc as (_ & Hw & Hcl). rewrite bool_decide_true; [done|].
    apply Hin. right. by exists w.
  - destruct Hc as (_ & Hnone). rewrite bool_decide_false; [done|].
    rewrite Hin. intros [?%elem_of_nil|(w & Hw & Hcl)]; [done|].
    by rewrite Hnone in Hcl.
  - destruct Hc as (_ & w & x & be & Hw & Hfail).
    destruct (lists_what_it_has w x Hw) as (l & _ & Hhas).
    by rewrite Hhas in Hfail.
  - by destruct Hc.
Qed.

End Agreement.

(** X7: when every configured backend answers List and HasKey without failing
    and without side effect, and claims exactly the addresses it lists, the
    router's List and Has agree: Has is true for an address exactly when
    List returns it, and neither changes the world. *)
Theorem list_and_has_agree (m : MultiWallet) (a : address) (st : St) :
  (∀ w x, w ∈ nonNil [remote m; ledger m; local m] →
     ∃ l, apiWalletList (impl w) x = (BOk l, x)
          ∧ apiWalletHas (impl w) a x = (BOk (bool_decide (a ∈ elems l)), x)) →
  ∃ out stL stH,
    WalletList m st = (Ok out, stL)
    ∧ WalletHas m a st = (Ok (bool_decide (a ∈ elems out)), stH)
    ∧ world stL = world st ∧ world stH = world st.
Proof. intros Hpure. by apply list_agrees_with_has. Qed.

(** *** A key just created *)

Lemma route_present (m : MultiWallet) (kt : KeyType) (w : wallet) :
  route m kt = Some w → w ∈ nonNil [remote m; ledger m; local m].
Proof.
  rewrite nonNil_all, list_elem_of_omap. unfold route.
  destruct (wallet_at m slotRemote) as [r|] eqn:Hr.
  - intros [= <-]. exists slotRemote. split; [by left|done].
  - destruct (decide (kt = KTSecp256k1Ledger)); intros Hw.
    + exists slotLedger. split; [by right; left|done].
    + exists slotLocal. split; [by right; right; left|done].
Qed.

(** X9: when the backend that creates a key claims it afterwards and HasKey
    calls change no claim on it, a key New has just returned is not reported
    missing: Has does not answer false and Sign does not answer "key not
    found". *)
Theorem new_then_has (m : MultiWallet) (kt : KeyType) (a : address)
    (st st1 : St) :
  (∀ w x x', w ∈ nonNil [remote m; ledger m; local m] →
     apiWalletNew (impl w) kt x = (BOk a, x') → claims a w x' = true) →
  (∀ w v x, w ∈ nonNil [remote m; ledger m; local m] →
            v ∈ nonNil [remote m; ledger m; local m] →
            claims a v (apiWalletHas (impl w) a x).2 = claims a v x) →
  WalletNew m kt st = (Ok a, st1) →
  (WalletHas m a st1).1 ≠ Ok false
  ∧ ∀ msg meta, (WalletSign m a msg meta st1).1 ≠ Err ErrKeyNotFound.
Proof.
  intros Hnew Hkeep. rewrite WalletNew_route.
  destruct (route m kt) as [w|] eqn:Hroute; [|done].
  pose proof (route_present m kt w Hroute) as Hw.
  unfold invoke.
  destruct (apiWalletNew (impl w) kt (world st)) as [[a'|be] x'] eqn:Hcall;
    [|done].
  intros [= -> <-].
  pose proof (Hnew w (world st) x' Hw Hcall) as Hcl.
  match goal with |- context [WalletHas m a ?s] => set (st1 := s) end.
  pose proof (find_claims m a Hkeep st1) as Hc.
  pose proof (find_error_is_backend a [remote m; ledger m; local m] st1) as Herr.
  destruct (find a [remote m; ledger m; local m] st1) as [[[v|]|e|f] st2] eqn:Hf.
  - split; [by search_known Hf|]. intros msg meta. search_known Hf.
    intros Hsign.
    pose proof (invoke_not_router (EvSign (wtag v) a msg meta)
                  (apiWalletSign (impl v) a msg meta) st2) as Hn.
    by rewrite Hsign in Hn.
  - destruct Hc as (_ & Hnone). specialize (Hnone w Hw).
    unfold st1 in Hnone. simpl in Hnone. by rewrite Hnone in Hcl.
  - split; [by search_known Hf|]. intros msg meta. search_known Hf.
    intros [= ->]. by specialize (Herr _ _ eq_refl).
  - by destruct Hc.
Qed.

(** *** A delete that does not take *)

(** X10: the loop of [WalletDelete] has no bound of its own: when the first
    configured backend always claims the address and its delete always
    reports success, no number of rounds makes [WalletDelete] return. *)
Theorem delete_never_returns_while_claimed (m : MultiWallet) (a : address)
    (pass : string) (w0 : wallet) (rest : list wallet) :
  nonNil [remote m; ledger m; local m] = w0 :: rest →
  (∀ x, (apiWalletHas (impl w0) a x).1 = BOk true) →
  (∀ x, ∃ u, (apiWalletDelete (impl w0) a pass x).1 = BOk u) →
  ∀ fuel st, WalletDelete_fuel fuel m a pass st = None.
Proof.
  intros Hpresent Hhas Hdel fuel.
  induction fuel as [|fuel IH]; intros st; simpl; [done|].
  assert (Hround : ∃ st', delete_round m a pass st = (Ok false, st')).
  { unfold delete_round, find, mbind, M_bind. rewrite Hpresent. simpl.
    unfold mbind, M_bind, invoke.
    pose proof (Hhas (world st)) as Hh.
    destruct (apiWalletHas (impl w0) a (world st)) as [r x]. simpl in Hh.
    subst r. simpl.
    destruct (Hdel x) as (u & Hd).
    destruct (apiWalletDelete (impl w0) a pass x) as [r x']. simpl in Hd.
    subst r. by eexists. }
  destruct Hround as (st' & ->). apply IH.
Qed.

(** *** Where errors come from *)

Lemma delete_log_error (m : MultiWallet) (a : address) (pass : string) r evs :
  delete_log m a pass r evs → ∀ e, r = Err e → ∃ be, e = BackendError be.
Proof.
  induction 1 as [|be pre w post _|be pre w post _|pre w post u r evs _ _ IH];
    intros e He; [done| | |by apply IH].
  - injection He as <-. by exists be.
  - injection He as <-. by exists be.
Qed.

(** X11: Has, List and Delete add no error of their own: every error they return
    is the error of a backend call, unchanged.  Sign and Export add only
    "key not found".  None of them returns a "no wallet backends" error. *)
Theorem errors_are_the_backends (m : MultiWallet) (a : address) (st : St) :
  (∀ e, (WalletHas m a st).1 = Err e → ∃ be, e = BackendError be)
  ∧ (∀ e, (WalletList m st).1 = Err e → ∃ be, e = BackendError be)
  ∧ (∀ pass e st', WalletDelete m a pass st (Err e) st' → ∃ be, e = BackendError be)
  ∧ (∀ msg meta e, (WalletSign m a msg meta st).1 = Err e →
       e = ErrKeyNotFound ∨ ∃ be, e = BackendError be)
  ∧ (∀ password e, (WalletExport m a password st).1 = Err e →
       e = ErrKeyNotFound ∨ ∃ be, e = BackendError be).
Proof.
  assert (Hfind : ∀ ws e st', find a ws st = (Err e, st') → ∃ be, e = BackendError be).
  { intros ws e st' Hf. pose proof (find_spec a ws st) as Hs. rewrite Hf in Hs.
    destruct Hs as (be & _ & _ & _ & -> & _). by exists be. }
  assert (Hinvoke : ∀ A (ev : bres A → event) f s e,
            (invoke ev f s).1 = Err e → ∃ be, e = BackendError be).
  { intros A ev f s e. unfold invoke. destruct (f (world s)) as [[v|be] x]; simpl;
      [done|]. intros [= <-]. by exists be. }
  split; [|split; [|split; [|split]]].
  - intros e. unfold WalletHas, mbind, M_bind.
    destruct (find a [remote m; ledger m; local m] st) as [[o|e'|f] st'] eqn:Hf;
      simpl; try done.
    intros [= ->]. by eapply Hfind.
  - intros e. unfold WalletList.
    assert (Hinv : list_inv (∅, mkSlice []) []).
    { split; [|done]. intros x. simpl. by rewrite elem_of_empty, elem_of_nil. }
    pose proof (list_loop_spec (nonNil [remote m; ledger m; local m])
                  (∅, mkSlice []) [] st Hinv) as Hs.
    destruct (list_loop _ _ st) as [[out|e'|f] st']; simpl; try done.
    intros [= ->]. destruct Hs as (be & _ & _ & _ & _ & -> & _). by exists be.
  - intros pass e st' [fuel Hrun]. apply WalletDelete_fuel_run in Hrun.
    destruct (delete_run_log m a pass st _ st' Hrun) as (evs & _ & Hlog).
    by eapply delete_log_error.
  - intros msg meta e. unfold WalletSign, mbind, M_bind.
    destruct (find a [remote m; ledger m; local m] st) as [[[w|]|e'|f] st'] eqn:Hf;
      simpl; try done.
    + intros He. right. by eapply Hinvoke.
    + intros [= <-]. by left.
    + intros [= ->]. right. by eapply Hfind.
  - intros password e. unfold WalletExport, mbind, M_bind.
    destruct (find a [remote m; local m] st) as [[[w|]|e'|f] st'] eqn:Hf;
      simpl; try done.
    + intros He. right. by eapply Hinvoke.
    + intros [= <-]. by left.
    + intros [= ->]. right. by eapply Hfind.
Qed.

(** *** No backend at all *)

(** X12: with no backend configured the operations that search find nothing:
    Sign and Export answer "key not found" and Delete succeeds, all without
    a backend call, while New and Import fail with their "no wallet
    backends" errors. *)
Theorem no_backend_operations (a : address) (kt : KeyType) (ki : KeyInfo)
    (pass : string) (st : St) :
  let m := {| Local := None; Remote := None; Ledger := None |} in
  (∀ msg meta, WalletSign m a msg meta st = (Err ErrKeyNotFound, st))
  ∧ WalletExport m a pass st = (Err ErrKeyNotFound, st)
  ∧ (∀ fuel, WalletDelete_fuel (S fuel) m a pass st = Some (Ok (), st))
  ∧ WalletNew m kt st = (Err (ErrNoBackendForKeyType kt), st)
  ∧ WalletImport m (Some ki) st = (Err ErrNoBackendsConfigured, st).
Proof.
  intros m. split; [done|]. split; [done|]. split; [done|]. split.
  - unfold WalletNew. simpl. by destruct (decide (kt = KTSecp256k1Ledger)).
  - unfold WalletImport, mbind, M_bind. simpl.
    by destruct (decide (KeyInfo_Type ki = KTSecp256k1Ledger)).
Qed.

End Router.

Arguments BOk {BErr A} a.
Arguments BFail {BErr A} e.
Arguments Ok {KeyType BErr A} a.
Arguments Err {KeyType BErr A} e.
Arguments Fault {KeyType BErr A} f.
Arguments NRet {BErr A} r.
Arguments NPanic {BErr A} f.

(** * The local wallet absent *)

Section AbsentLocal.

Context {address KeyType W BErr Signature MsgMeta Message SignedMessage : Type}.

Local Abbreviation LocalWalletT :=
  (@LocalWallet address KeyType W BErr Signature MsgMeta Message SignedMessage).
Local Abbreviation WalletAPIT :=
  (@WalletAPI address KeyType W BErr Signature MsgMeta).
Local Abbreviation StT := (@St address KeyType W BErr Signature MsgMeta Message).
Local Abbreviation OpT := (@local_op address Message).
Local Abbreviation outcomeT := (@outcome KeyType BErr).

(** The error an absent local backend answers with. *)
Variable ErrNoLocalBackend : BErr.

(** Modelled from the spec: the bodies of the local wallet's keystore methods
    (WalletChangePasswd, DeleteKey2, WalletClearPasswd, WalletIsLock,
    WalletLock, WalletUnlock, WalletSignMessage2) are missing from these
    sources, so what they do on the nil receiver of an unconfigured Local is
    taken from the specification: invoking the absent backend fails with a
    well-defined NoBackendAvailable-style error, a failure of the
    backend-error class, and changes nothing. *)
Definition absentLocal : @NilLocalWallet address W BErr Message SignedMessage :=
  {| nilWalletChangePasswd := λ p x, (NRet (BFail ErrNoLocalBackend), x);
     nilDeleteKey2 := λ a x, (NRet (BFail ErrNoLocalBackend), x);
     nilWalletClearPasswd := λ x, (NRet (BFail ErrNoLocalBackend), x);
     nilWalletIsLock := λ x, (NRet (BFail ErrNoLocalBackend), x);
     nilWalletLock := λ x, (NRet (BFail ErrNoLocalBackend), x);
     nilWalletUnlock := λ p x, (NRet (BFail ErrNoLocalBackend), x);
     nilWalletSignMessage2 := λ a msg p x, (NRet (BFail ErrNoLocalBackend), x) |}.

(** A local-only operation in words: with Local configured it is the one
    call [f] of the local wallet, whose answer and world are the result; with
    Local absent it is the absent backend's error in the unchanged world.
    Either way the log grows by that one call, and Remote and the Ledger play
    no part. *)
Definition local_only {A} (lw : option LocalWalletT) (op : OpT)
    (f : LocalWalletT → W → bres A * W) (st : StT) : outcomeT A * StT :=
  match lw with
  | Some l =>
      (outcome_of (f l (world st)).1, logged st (f l (world st)).2 [EvLocalOnly op])
  | None =>
      (Err (BackendError ErrNoLocalBackend), logged st (world st) [EvLocalOnly op])
  end.

Lemma forward_local_only {A} (lw : option LocalWalletT) (op : OpT)
    (f : LocalWalletT → W → bres A * W) (fnil : W → nres A * W) (st : StT) :
  (∀ x, fnil x = (NRet (BFail ErrNoLocalBackend), x)) →
  forward op (method f fnil lw) st = local_only lw op f st.
Proof.
  intros Hnil. unfold forward, method, local_only, logged.
  destruct lw as [l|].
  - by destruct (f l (world st)).
  - by rewrite Hnil.
Qed.

(** C4: passphrase change, passphrase clearing, lock query, lock, unlock and
    sign-with-passphrase are each forwarded to the Local backend and to
    nothing else: whatever Remote and the Ledger are, the result is the
    answer of the local wallet's own method, the world is the one it left
    and the log grows by that single call on Local.  With Local absent each
    of them returns the absent backend's error in the unchanged world. *)
Theorem C4_local_only_forwarded (lw : option LocalWalletT)
    (remote ledger : option WalletAPIT) (st : StT) :
  let m := {| Local := lw; Remote := remote; Ledger := ledger |} in
  let none := {| Local := None; Remote := remote; Ledger := ledger |} in
  ((∀ p, WalletChangePasswd absentLocal m p st
         = local_only lw (OpChangePasswd p) (λ l, lwWalletChangePasswd l p) st)
   ∧ WalletClearPasswd absentLocal m st
     = local_only lw OpClearPasswd lwWalletClearPasswd st
   ∧ WalletIsLock absentLocal m st = local_only lw OpIsLock lwWalletIsLock st
   ∧ WalletLock absentLocal m st = local_only lw OpLock lwWalletLock st
   ∧ (∀ p, WalletUnlock absentLocal m p st
           = local_only lw (OpUnlock p) (λ l, lwWalletUnlock l p) st)
   ∧ (∀ k msg p, WalletSignMessage2 absentLocal m k msg p st
        = local_only lw (OpSignMessage2 k msg p)
            (λ l, lwWalletSignMessage2 l k msg p) st))
  ∧ ((∀ p, WalletChangePasswd absentLocal none p st
           = (Err (BackendError ErrNoLocalBackend),
              logged st (world st) [EvLocalOnly (OpChangePasswd p)]))
     ∧ WalletClearPasswd absentLocal none st
       = (Err (BackendError ErrNoLocalBackend),
          logged st (world st) [EvLocalOnly OpClearPasswd])
     ∧ WalletIsLock absentLocal none st
       = (Err (BackendError ErrNoLocalBackend),
          logged st (world st) [EvLocalOnly OpIsLock])
     ∧ WalletLock absentLocal none st
       = (Err (BackendError ErrNoLocalBackend),
          logged st (world st) [EvLocalOnly OpLock])
     ∧ (∀ p, WalletUnlock absentLocal none p st
           = (Err (BackendError ErrNoLocalBackend),
              logged st (world st) [EvLocalOnly (OpUnlock p)]))
     ∧ (∀ k msg p, WalletSignMessage2 absentLocal none k msg p st
          = (Err (BackendError ErrNoLocalBackend),
             logged st (world st) [EvLocalOnly (OpSignMessage2 k msg p)]))).
Proof.
  intros m none. split.
  - repeat split; intros; by apply forward_local_only.
  - repeat split; intros; reflexivity.
Qed.

End AbsentLocal.

(** * A concrete router

    Three key stores, a backend that cannot be reached, and a local wallet
    whose keystore methods read their receiver. *)
Module Demo.

Record keys := {
  remote_keys : list string;
  ledger_keys : list string;
  local_keys : list string;
}.

Definition set_remote (ks : list string) (x : keys) : keys :=
  {| remote_keys := ks; ledger_keys := ledger_keys x; local_keys := local_keys x |}.
Definition set_ledger (ks : list string) (x : keys) : keys :=
  {| remote_keys := remote_keys x; ledger_keys := ks; local_keys := local_keys x |}.
Definition set_local (ks : list string) (x : keys) : keys :=
  {| remote_keys := remote_keys x; ledger_keys := ledger_keys x; local_keys := ks |}.

Definition API : Type := @WalletAPI string string keys string string unit.
Definition Keystore : Type :=
  @LocalWallet string string keys string string unit unit unit.
Definition Wallets : Type :=
  @MultiWallet string string keys string string unit unit unit.
Definition State : Type := @St string string keys string string unit unit.

Definition KTSecp256k1 : string := "secp256k1".
Definition KTSecp256k1Ledger : string := "secp256k1-ledger".

(** A backend that owns the keys of one store. *)
Definition store (get : keys → list string) (set : list string → keys → keys)
    (name : string) : API :=
  {| apiWalletNew := λ kt x, (BOk (name +:+ "-new"), set (get x ++ [name +:+ "-new"]) x);
     apiWalletHas := λ a x, (BOk (bool_decide (a ∈ get x)), x);
     apiWalletList := λ x, (BOk (mkSlice (get x)), x);
     apiWalletSign := λ a msg meta x,
       (if decide (a ∈ get x) then BOk (name +:+ "-signature")
        else BFail "key not held", x);
     apiWalletExport := λ a p x,
       (if decide (a ∈ get x)
        then BOk {| KeyInfo_Type := KTSecp256k1; PrivateKey := [] |}
        else BFail "key not held", x);
     apiWalletImport := λ ki x,
       (BOk (name +:+ "-imported"), set (get x ++ [name +:+ "-imported"]) x);
     apiWalletDelete := λ a p x, (BOk (), set (filter (λ k, k ≠ a) (get x)) x) |}.

(** A backend whose every call fails. *)
Definition unreachable : API :=
  {| apiWalletNew := λ kt x, (BFail "unreachable", x);
     apiWalletHas := λ a x, (BFail "unreachable", x);
     apiWalletList := λ x, (BFail "unreachable", x);
     apiWalletSign := λ a msg meta x, (BFail "unreachable", x);
     apiWalletExport := λ a p x, (BFail "unreachable", x);
     apiWalletImport := λ ki x, (BFail "unreachable", x);
     apiWalletDelete := λ a p x, (BFail "unreachable", x) |}.

Definition remote_store : API := store remote_keys set_remote "remote".
Definition ledger_store : API := store ledger_keys set_ledger "ledger".

Definition local_wallet : Keystore :=
  {| lwAPI := store local_keys set_local "local";
     lwWalletChangePasswd := λ p x, (BOk true, x);
     lwDeleteKey2 := λ a x, (BOk (), set_local (filter (λ k, k ≠ a) (local_keys x)) x);
     lwWalletClearPasswd := λ x, (BOk true, x);
     lwWalletIsLock := λ x, (BOk false, x);
     lwWalletLock := λ x, (BOk (), x);
     lwWalletUnlock := λ p x, (BOk (), x);
     lwWalletSignMessage2 := λ a msg p x,
       (if decide (a ∈ local_keys x) then BOk () else BFail "key not held", x) |}.

(** Keystore methods that read a field of their receiver: on a nil receiver
    that read panics. *)
Definition reads_receiver
  : @NilLocalWallet string keys string unit unit :=
  {| nilWalletChangePasswd := λ p x, (NPanic NilDeref, x);
     nilDeleteKey2 := λ a x, (NPanic NilDeref, x);
     nilWalletClearPasswd := λ x, (NPanic NilDeref, x);
     nilWalletIsLock := λ x, (NPanic NilDeref, x);
     nilWalletLock := λ x, (NPanic NilDeref, x);
     nilWalletUnlock := λ p x, (NPanic NilDeref, x);
     nilWalletSignMessage2 := λ a msg p x, (NPanic NilDeref, x) |}.

Definition all_three : Wallets :=
  {| Local := Some local_wallet; Remote := Some remote_store;
     Ledger := Some ledger_store |}.
Definition remote_and_local : Wallets :=
  {| Local := Some local_wallet; Remote := Some remote_store; Ledger := None |}.
Definition only_local : Wallets :=
  {| Local := Some local_wallet; Remote := None; Ledger := None |}.
Definition ledger_and_local : Wallets :=
  {| Local := Some local_wallet; Remote := None; Ledger := Some ledger_store |}.
Definition no_local : Wallets :=
  {| Local := None; Remote := Some remote_store; Ledger := Some ledger_store |}.
Definition flaky_remote : Wallets :=
  {| Local := Some local_wallet; Remote := Some unreachable; Ledger := None |}.

Definition start (r h l : list string) : State :=
  {| world := {| remote_keys := r; ledger_keys := h; local_keys := l |};
     events := [] |}.

(** Search order: with the three backends configured and the key held by
    Local only, Remote and Ledger are asked first, Has is true and Sign is
    signed by Local. *)
Example search_reaches_local :
  WalletHas all_three "A" (start [] [] ["A"])
  = (Ok true,
     {| world := world (start [] [] ["A"]);
        events := [EvHas slotRemote "A" (BOk false);
                   EvHas slotLedger "A" (BOk false);
                   EvHas slotLocal "A" (BOk true)] |})
  ∧ (WalletSign all_three "A" [] () (start [] [] ["A"])).1 = Ok "local-signature".
Proof. split; reflexivity. Qed.

(** Creation: an ordinary key goes to Local when only Local is configured, a
    hardware key then has no backend; Remote takes a hardware key when it is
    configured; the Ledger takes it when Remote is not. *)
Example creation_routing :
  (WalletNew KTSecp256k1Ledger only_local KTSecp256k1 (start [] [] [])).1
  = Ok "local-new"
  ∧ WalletNew KTSecp256k1Ledger only_local KTSecp256k1Ledger (start [] [] [])
    = (Err (ErrNoBackendForKeyType KTSecp256k1Ledger), start [] [] [])
  ∧ (WalletNew KTSecp256k1Ledger remote_and_local KTSecp256k1Ledger
       (start [] [] [])).1 = Ok "remote-new"
  ∧ (WalletNew KTSecp256k1Ledger ledger_and_local KTSecp256k1Ledger
       (start [] [] [])).1 = Ok "ledger-new"
  ∧ WalletImport KTSecp256k1Ledger only_local
      (Some {| KeyInfo_Type := KTSecp256k1Ledger; PrivateKey := [] |})
      (start [] [] [])
    = (Err ErrNoBackendsConfigured, start [] [] []).
Proof. repeat split; reflexivity. Qed.

(** Enumeration: Remote lists A, B and Local lists B, C. *)
Example list_dedup :
  (WalletList remote_and_local (start ["A"; "B"] [] ["B"; "C"])).1
  = Ok (mkSlice ["A"; "B"; "C"]).
Proof. reflexivity. Qed.

(** An unreachable backend stops the enumeration. *)
Example list_aborts :
  WalletList flaky_remote (start [] [] ["B"; "C"])
  = (Err (BackendError "unreachable"),
     {| world := world (start [] [] ["B"; "C"]);
        events := [EvList slotRemote (BFail "unreachable")] |}).
Proof. reflexivity. Qed.

(** Deletion of a key held by Remote and by Local: two rounds delete, the
    third finds no owner; two rounds are not enough. *)
Example delete_twice_owned :
  WalletDelete_fuel 3 remote_and_local "A" "pw" (start ["A"] [] ["A"; "B"])
  = Some (Ok (),
          {| world := world (start [] [] ["B"]);
             events := [EvHas slotRemote "A" (BOk true);
                        EvDelete slotRemote "A" "pw" (BOk ());
                        EvHas slotRemote "A" (BOk false);
                        EvHas slotLocal "A" (BOk true);
                        EvDelete slotLocal "A" "pw" (BOk ());
                        EvHas slotRemote "A" (BOk false);
                        EvHas slotLocal "A" (BOk false)] |})
  ∧ WalletDelete_fuel 2 remote_and_local "A" "pw" (start ["A"] [] ["A"; "B"])
    = None.
Proof. split; reflexivity. Qed.

(** Deleting a key nobody holds: one search, no delete. *)
Example delete_unowned :
  WalletDelete_fuel 1 all_three "A" "pw" (start [] [] ["B"])
  = Some (Ok (),
          {| world := world (start [] [] ["B"]);
             events := [EvHas slotRemote "A" (BOk false);
                        EvHas slotLedger "A" (BOk false);
                        EvHas slotLocal "A" (BOk false)] |}).
Proof. reflexivity. Qed.

(** Export does not ask the Ledger, which holds the key here; Sign does. *)
Example export_ignores_ledger :
  WalletExport ledger_and_local "A" "pw" (start [] ["A"] [])
  = (Err ErrKeyNotFound,
     {| world := world (start [] ["A"] []);
        events := [EvHas slotLocal "A" (BOk false)] |})
  ∧ (WalletSign ledger_and_local "A" [] () (start [] ["A"] [])).1
    = Ok "ledger-signature".
Proof. split; reflexivity. Qed.

(** With Local configured Lock is one call of the local wallet; with Local
    nil the keystore method runs on the nil receiver and, reading it, panics:
    no error is returned. *)
Example lock_with_and_without_local :
  WalletLock reads_receiver all_three (start [] [] [])
  = (Ok (), {| world := world (start [] [] []); events := [EvLocalOnly OpLock] |})
  ∧ WalletLock reads_receiver no_local (start [] [] [])
    = (Fault NilDeref,
       {| world := world (start [] [] []); events := [EvLocalOnly OpLock] |})
  ∧ (WalletUnlock reads_receiver no_local "pw" (start [] [] [])).1 = Fault NilDeref
  ∧ (WalletChangePasswd reads_receiver no_local "pw" (start [] [] [])).1
    = Fault NilDeref.
Proof. repeat split; reflexivity. Qed.

(** With the absent local backend of the specification, Lock, Unlock and
    the lock query without Local return its error; Remote and the Ledger,
    both configured, are not asked. *)
Example lock_local_absent :
  WalletLock (absentLocal "no local wallet backend") no_local (start ["A"] [] [])
  = (Err (BackendError "no local wallet backend"),
     {| world := world (start ["A"] [] []); events := [EvLocalOnly OpLock] |})
  ∧ (WalletUnlock (absentLocal "no local wallet backend") no_local "pw"
       (start ["A"] [] [])).1 = Err (BackendError "no local wallet backend")
  ∧ (WalletIsLock (absentLocal "no local wallet backend") no_local
       (start ["A"] [] [])).1 = Err (BackendError "no local wallet backend").
Proof. repeat split; reflexivity. Qed.

(** Import of a nil key info. *)
Example import_nil_info :
  WalletImport KTSecp256k1Ledger all_three None (start [] [] ["A"])
  = (Fault NilDeref, start [] [] ["A"]).
Proof. reflexivity. Qed.

Definition flaky_ledger : Wallets :=
  {| Local := Some local_wallet; Remote := Some remote_store;
     Ledger := Some unreachable |}.

(** Fail fast: Remote answers false, the Ledger cannot be reached and Local
    holds the key; Has, Sign and Delete return the Ledger's error and Local
    is not asked.  With Remote unreachable Export returns Remote's error. *)
Lemma C2_fail_fast_witness :
  let st := start [] [] ["A"] in
  let st' := {| world := world st;
                events := [EvHas slotRemote "A" (BOk false);
                           EvHas slotLedger "A" (BFail "unreachable")] |} in
  let st'' := {| world := world st;
                 events := [EvHas slotRemote "A" (BFail "unreachable")] |} in
  (apiWalletHas (lwAPI local_wallet) "A" (world st)).1 = BOk true
  ∧ WalletHas flaky_ledger "A" st = (Err (BackendError "unreachable"), st')
  ∧ WalletSign flaky_ledger "A" [] () st = (Err (BackendError "unreachable"), st')
  ∧ WalletDelete_fuel 1 flaky_ledger "A" "pw" st
    = Some (Err (BackendError "unreachable"), st')
  ∧ WalletExport flaky_remote "A" "pw" st = (Err (BackendError "unreachable"), st'').
Proof.
  intros st st' st''.
  assert (Hpre : all_false "A" [{| wtag := slotRemote; impl := remote_store |}]
                   (world st) (world st))
    by (econstructor; [reflexivity|constructor]).
  destruct (C2_search_error_aborts flaky_ledger "A" st
              [{| wtag := slotRemote; impl := remote_store |}]
              {| wtag := slotLedger; impl := unreachable |}
              [{| wtag := slotLocal; impl := lwAPI local_wallet |}]
              (world st) (world st) "unreachable" Hpre eq_refl) as [Hall _].
  destruct (Hall eq_refl) as (_ & Hhas & Hsign & Hdelete).
  destruct (C2_search_error_aborts flaky_remote "A" st []
              {| wtag := slotRemote; impl := unreachable |}
              [{| wtag := slotLocal; impl := lwAPI local_wallet |}]
              (world st) (world st) "unreachable" (all_false_nil "A" _) eq_refl)
    as [_ Hexport].
  destruct (Hexport eq_refl) as (_ & Hexp).
  split; [reflexivity|]. split; [exact Hhas|]. split; [apply Hsign|].
  split; [apply Hdelete|apply Hexp].
Defined.

(** Search order: Remote and the Ledger answer false, Local holds the key
    and is the owner returned. *)
Lemma C1_search_order_witness :
  let st := start [] [] ["A"] in
  let st' := {| world := world st;
                events := [EvHas slotRemote "A" (BOk false);
                           EvHas slotLedger "A" (BOk false);
                           EvHas slotLocal "A" (BOk true)] |} in
  WalletHas all_three "A" st = (Ok true, st')
  ∧ WalletHas all_three "B" st
    = (Ok false,
       {| world := world st;
          events := [EvHas slotRemote "B" (BOk false);
                     EvHas slotLedger "B" (BOk false);
                     EvHas slotLocal "B" (BOk false)] |}).
Proof.
  intros st st'.
  destruct (C1_find_first_owner all_three "A" st) as (_ & Hfound & _).
  destruct (C1_find_first_owner all_three "B" st) as (_ & _ & Hnone & _).
  split.
  - refine (proj1 (proj2 (Hfound
              [{| wtag := slotRemote; impl := remote_store |};
               {| wtag := slotLedger; impl := ledger_store |}]
              {| wtag := slotLocal; impl := lwAPI local_wallet |} []
              (world st) (world st) eq_refl _ eq_refl))).
    repeat (econstructor; [reflexivity|]). constructor.
  - refine (proj2 (Hnone (world st) _)).
    repeat (econstructor; [reflexivity|]). constructor.
Defined.

(** The deletion of a key held by Remote and by Local is a run of the
    description: two rounds, then no owner. *)
Lemma C5_delete_loop_witness :
  deletes remote_and_local "A" "pw" (start ["A"] [] ["A"; "B"]) (Ok ())
    {| world := world (start [] [] ["B"]);
       events := [EvHas slotRemote "A" (BOk true);
                  EvDelete slotRemote "A" "pw" (BOk ());
                  EvHas slotRemote "A" (BOk false);
                  EvHas slotLocal "A" (BOk true);
                  EvDelete slotLocal "A" "pw" (BOk ());
                  EvHas slotRemote "A" (BOk false);
                  EvHas slotLocal "A" (BOk false)] |}.
Proof.
  apply (proj1 (C5_delete_loop remote_and_local "A" "pw"
                  (start ["A"] [] ["A"; "B"]))).
  exists 3. reflexivity.
Defined.

(** The two backends of [remote_and_local]. *)
Lemma remote_and_local_present (w : wallet) :
  w ∈ nonNil [remote remote_and_local; ledger remote_and_local;
              local remote_and_local] →
  w = {| wtag := slotRemote; impl := remote_store |}
  ∨ w = {| wtag := slotLocal; impl := lwAPI local_wallet |}.
Proof.
  simpl. rewrite !elem_of_cons, elem_of_nil. tauto.
Qed.

Lemma not_in_filter_ne (a : string) (l : list string) :
  bool_decide (a ∈ filter (λ k, k ≠ a) l) = false.
Proof.
  apply bool_decide_eq_false. rewrite list_elem_of_filter.
  intros [Hne _]. by apply Hne.
Qed.

(** Convergence: the key is held by Remote and by Local; both stores answer
    HasKey without side effect and drop the key on Delete. *)
Lemma C6_delete_converges_witness :
  ∃ r st',
    WalletDelete_fuel 3 remote_and_local "A" "pw" (start ["A"] [] ["A"]) = Some (r, st')
    ∧ WalletDelete_fuel 4 remote_and_local "A" "pw" (start ["A"] [] ["A"])
      = Some (r, st')
    ∧ WalletDelete remote_and_local "A" "pw" (start ["A"] [] ["A"]) r st'
    ∧ (r = Ok () →
       (∀ v, v ∈ omap (wallet_at remote_and_local)
                   [slotRemote; slotLedger; slotLocal] →
             claims "A" v (world st') = false)
       ∧ length (filter (λ w, claims "A" w (world st') = true)
                   (omap (wallet_at remote_and_local)
                      [slotRemote; slotLedger; slotLocal])) = 0
       ∧ (WalletHas remote_and_local "A" st').1 ≠ Ok true
       ∧ ((∀ v x be,
             v ∈ omap (wallet_at remote_and_local)
                   [slotRemote; slotLedger; slotLocal] →
             (apiWalletHas (impl v) "A" x).1 ≠ BFail be) →
          (WalletHas remote_and_local "A" st').1 = Ok false)).
Proof.
  apply (C6_delete_converges remote_and_local "A" "pw" (start ["A"] [] ["A"])).
  - intros w v x Hw Hv.
    by destruct (remote_and_local_present w Hw) as [-> | ->].
  - intros w x u x' Hw Hd.
    destruct (remote_and_local_present w Hw) as [-> | ->];
      simpl in Hd; injection Hd as Hx'; subst x'; unfold claims; simpl;
      rewrite not_in_filter_ne; (split; [done|]);
      intros v Hv;
      destruct (remote_and_local_present v Hv) as [-> | ->];
      unfold claims; simpl; rewrite ?not_in_filter_ne; done.
Defined.

(** The three backends of [all_three]. *)
Lemma all_three_present (w : wallet) :
  w ∈ nonNil [remote all_three; ledger all_three; local all_three] →
  w = {| wtag := slotRemote; impl := remote_store |}
  ∨ w = {| wtag := slotLedger; impl := ledger_store |}
  ∨ w = {| wtag := slotLocal; impl := lwAPI local_wallet |}.
Proof.
  simpl. rewrite !elem_of_cons, elem_of_nil. tauto.
Qed.

(** The deletion of a key held by Remote and by Local: both deletes come
    right after the deleting backend answered true. *)
Lemma delete_calls_follow_claim_witness :
  ∃ evs,
    events {| world := world (start [] [] ["B"]);
              events := [EvHas slotRemote "A" (BOk true);
                         EvDelete slotRemote "A" "pw" (BOk ());
                         EvHas slotRemote "A" (BOk false);
                         EvHas slotLocal "A" (BOk true);
                         EvDelete slotLocal "A" "pw" (BOk ());
                         EvHas slotRemote "A" (BOk false);
                         EvHas slotLocal "A" (BOk false)] |}
    = events (start ["A"] [] ["A"; "B"]) ++ evs
    ∧ ∀ i s a' p rd, evs !! i = Some (EvDelete s a' p rd) →
        ∃ j, i = S j ∧ evs !! j = Some (EvHas s "A" (BOk true))
             ∧ a' = "A" ∧ p = "pw".
Proof.
  apply (delete_calls_follow_claim remote_and_local "A" "pw"
           (start ["A"] [] ["A"; "B"]) (Ok ())).
  exists 3. reflexivity.
Defined.

Lemma delete_success_ends_unclaimed_witness :
  ∃ evs,
    events {| world := world (start [] [] ["B"]);
              events := [EvHas slotRemote "A" (BOk true);
                         EvDelete slotRemote "A" "pw" (BOk ());
                         EvHas slotRemote "A" (BOk false);
                         EvHas slotLocal "A" (BOk true);
                         EvDelete slotLocal "A" "pw" (BOk ());
                         EvHas slotRemote "A" (BOk false);
                         EvHas slotLocal "A" (BOk false)] |}
    = events (start ["A"] [] ["A"; "B"]) ++ evs
    ∧ ∃ rounds, evs = rounds
        ++ (has_false "A"
              <$> omap (wallet_at remote_and_local)
                       [slotRemote; slotLedger; slotLocal]).
Proof.
  destruct (delete_success_ends_unclaimed remote_and_local "A" "pw"
              (start ["A"] [] ["A"; "B"]) (Ok ()) _ (ex_intro _ 3 eq_refl))
    as (evs & Hev & _ & Hend).
  exists evs. split; [exact Hev|exact (Hend eq_refl)].
Defined.

(** Has finds the key in Local; a Sign made next is signed. *)
Lemma has_then_sign_witness :
  let st := start [] [] ["A"] in
  let st1 := {| world := world st;
                events := [EvHas slotRemote "A" (BOk false);
                           EvHas slotLedger "A" (BOk false);
                           EvHas slotLocal "A" (BOk true)] |} in
  (WalletSign all_three "A" [] () st1).1 ≠ Err ErrKeyNotFound.
Proof.
  intros st st1.
  refine (proj1 (has_then_sign all_three "A" st st1 _) eq_refl [] ()).
  intros w v x Hw Hv.
  by destruct (all_three_present w Hw) as [-> | [-> | ->]].
Defined.

(** The stores list what they have: List and Has agree on the router. *)
Lemma list_and_has_agree_witness :
  ∃ out stL stH,
    WalletList all_three (start ["A"; "B"] ["C"] ["B"; "D"]) = (Ok out, stL)
    ∧ WalletHas all_three "D" (start ["A"; "B"] ["C"] ["B"; "D"])
      = (Ok (bool_decide ("D" ∈ elems out)), stH)
    ∧ world stL = world (start ["A"; "B"] ["C"] ["B"; "D"])
    ∧ world stH = world (start ["A"; "B"] ["C"] ["B"; "D"]).
Proof.
  apply (list_and_has_agree all_three "D" (start ["A"; "B"] ["C"] ["B"; "D"])).
  intros w x Hw.
  destruct (all_three_present w Hw) as [-> | [-> | ->]]; by eexists.
Defined.

(** New on Remote, whose store claims the key it created. *)
Lemma new_then_has_witness :
  let st := start [] [] [] in
  let st1 := {| world := {| remote_keys := ["remote-new"]; ledger_keys := [];
                            local_keys := [] |};
                events := [EvNew slotRemote KTSecp256k1 (BOk "remote-new")] |} in
  (WalletHas remote_and_local "remote-new" st1).1 ≠ Ok false
  ∧ ∀ msg meta,
      (WalletSign remote_and_local "remote-new" msg meta st1).1 ≠ Err ErrKeyNotFound.
Proof.
  intros st st1.
  apply (new_then_has KTSecp256k1Ledger remote_and_local KTSecp256k1
           "remote-new" st st1).
  - intros w x x' Hw Hnew.
    destruct (remote_and_local_present w Hw) as [-> | ->]; simpl in Hnew.
    + injection Hnew as <-. unfold claims. simpl.
      rewrite bool_decide_true; [done|]. apply elem_of_app. right. by left.
    + discriminate Hnew.
  - intros w v x Hw Hv.
    by destruct (remote_and_local_present w Hw) as [-> | ->].
  - reflexivity.
Defined.

(** A backend that always claims the key and whose delete reports success
    without deleting. *)
Definition sticky : API :=
  {| apiWalletNew := λ kt x, (BFail "read only", x);
     apiWalletHas := λ a x, (BOk true, x);
     apiWalletList := λ x, (BOk (mkSlice (remote_keys x)), x);
     apiWalletSign := λ a msg meta x, (BOk "sticky-signature", x);
     apiWalletExport := λ a p x, (BFail "read only", x);
     apiWalletImport := λ ki x, (BFail "read only", x);
     apiWalletDelete := λ a p x, (BOk (), x) |}.

Definition sticky_remote : Wallets :=
  {| Local := Some local_wallet; Remote := Some sticky; Ledger := None |}.

Lemma delete_never_returns_witness :
  WalletDelete_fuel 50 sticky_remote "A" "pw" (start [] [] []) = None.
Proof.
  apply (delete_never_returns_while_claimed sticky_remote "A" "pw"
           {| wtag := slotRemote; impl := sticky |}
           [{| wtag := slotLocal; impl := lwAPI local_wallet |}]).
  - reflexivity.
  - intros x. reflexivity.
  - intros x. by exists ().
Defined.

End Demo.

(** * Genesis set-up (package modules)

    [SetGenesis], [ErrorGenesis] and [LoadGenesis] over an abstract world
    that holds the chain store and the block store.  The calls [SetGenesis]
    makes are logged with their answers. *)

Section Genesis.

(** The world, block headers, cids, and the errors of the collaborators. *)
Context {Wd Header Cid E : Type} `{EqDecision Cid}.

(** The method [Cid] of a block header and the process environment read by
    [os.Getenv]. *)
Variable Cid_of : Header → Cid.
Variable Getenv : string → string.

Inductive gerror :=
| ErrNotFound                               (* datastore.ErrNotFound *)
| ErrOther (e : E)                          (* another error of a collaborator *)
| ErrNew (msg : string)                     (* xerrors.New, Errorf without %w *)
| ErrWrap (msg : string) (cause : gerror).  (* xerrors.Errorf("msg: %w", cause) *)

(** [err != datastore.ErrNotFound] compares with the sentinel itself: a
    wrapped ErrNotFound is a different error. *)
Definition is_not_found (err : gerror) : bool :=
  match err with ErrNotFound => true | _ => false end.

Inductive gres (A : Type) := GOk (a : A) | GErr (err : gerror).
Arguments GOk {A} a.
Arguments GErr {A} err.

(** [*store.ChainStore]: the two methods [SetGenesis] uses. *)
Record ChainStore := {
  GetGenesis : Wd → gres Header * Wd;
  ChainStore_SetGenesis : Header → Wd → option gerror * Wd;
}.

(** [type Genesis func() (header, error)]: a genesis function, like
    GetGenesis, returns a block header or an error, never neither. *)
Definition Genesis : Type := Wd → gres Header * Wd.

Inductive gevent :=
| GevGetGenesis (r : gres Header)
| GevGenesisFunc (r : gres Header)
| GevSetGenesis (h : Header) (r : option gerror).

Record GSt := { gworld : Wd; gevents : list gevent }.

Definition gcall {A} (ev : A → gevent) (f : Wd → A * Wd) (st : GSt) : A * GSt :=
  let '(r, x) := f (gworld st) in
  (r, {| gworld := x; gevents := gevents st ++ [ev r] |}).

Definition ErrorGenesis : Genesis := λ x,
  (GErr (ErrNew "No genesis block provided, provide the file with 'lotus daemon --genesis=[genesis file]'"),
   x).

(** [dtypes.ChainBlockstore], [car.LoadCar] (its header's roots) and
    [types.DecodeBlock]. *)
Record ChainBlockstore := {
  bsGet : Cid → Wd → gres (list Byte.byte) * Wd;
}.

Variable LoadCar : ChainBlockstore → list Byte.byte → Wd → gres (list Cid) * Wd.
Variable DecodeBlock : list Byte.byte → gres Header.

(** [len(c.Roots) != 1] followed by [c.Roots[0]] is the match on a
    one-element list. *)
Definition LoadGenesis (genBytes : list Byte.byte) (bs : ChainBlockstore)
  : Genesis := λ x,
  let '(c, x1) := LoadCar bs genBytes x in
  match c with
  | GErr err => (GErr (ErrWrap "loading genesis car file failed" err), x1)
  | GOk roots =>
      match roots with
      | [root0] =>
          let '(root, x2) := bsGet bs root0 x1 in
          match root with
          | GErr err => (GErr err, x2)
          | GOk raw =>
              match DecodeBlock raw with
              | GErr err => (GErr (ErrWrap "decoding block failed" err), x2)
              | GOk h => (GOk h, x2)
              end
          end
      | _ => (GErr (ErrNew "expected genesis file to have one root"), x1)
      end
  end.

(** The result is the error of the Go pair; [dtypes.AfterGenesisSet] is an
    empty struct. *)
Definition SetGenesis (cs : ChainStore) (g : Genesis) (st : GSt)
  : option gerror * GSt :=
  let '(r, st1) := gcall GevGetGenesis (GetGenesis cs) st in
  match r with
  | GOk genFromRepo =>
      if decide (Getenv "LOTUS_SKIP_GENESIS_CHECK" ≠ "_yes_") then
        let '(r2, st2) := gcall GevGenesisFunc g st1 in
        match r2 with
        | GErr err => (Some (ErrWrap "getting expected genesis failed" err), st2)
        | GOk expectedGenesis =>
            if decide (Cid_of genFromRepo ≠ Cid_of expectedGenesis)
            then (Some (ErrNew "genesis in the repo is not the one expected by this version of Lotus!"),
                  st2)
            else (None, st2)
        end
      else (None, st1)
  | GErr err =>
      if negb (is_not_found err)
      then (Some (ErrWrap "getting genesis block failed" err), st1)
      else
        let '(r2, st2) := gcall GevGenesisFunc g st1 in
        match r2 with
        | GErr err => (Some (ErrWrap "genesis func failed" err), st2)
        | GOk genesis =>
            gcall (GevSetGenesis genesis) (ChainStore_SetGenesis cs genesis) st2
        end
  end.

(** No call of the chain store's SetGenesis in a short explicit log. *)
Ltac nothing_stored :=
  let Hin := fresh "Hin" in
  right; intros ? ? Hin; simpl in Hin;
  repeat (apply elem_of_cons in Hin as [Hin|Hin]; [done|]);
  by apply elem_of_nil in Hin.

(** X13: an existing genesis is never overwritten: the chain store's SetGenesis
    is called only after GetGenesis answered ErrNotFound itself and the
    genesis function returned a header; it is then the last call, made with
    that header, and its answer is the result. *)
Theorem SetGenesis_stores_only_when_missing (cs : ChainStore) (g : Genesis)
    (st : GSt) :
  let '(r, st') := SetGenesis cs g st in
  ∃ evs, gevents st' = gevents st ++ evs
    ∧ ((∃ h, evs = [GevGetGenesis (GErr ErrNotFound); GevGenesisFunc (GOk h);
                    GevSetGenesis h r])
       ∨ (∀ h rs, GevSetGenesis h rs ∉ evs)).
Proof.
  unfold SetGenesis, gcall.
  destruct (GetGenesis cs (gworld st)) as [[repo|err] x1]; simpl.
  - destruct (decide (Getenv "LOTUS_SKIP_GENESIS_CHECK" ≠ "_yes_")); simpl.
    + destruct (g x1) as [[h|err] x2]; simpl.
      * destruct (decide (Cid_of repo ≠ Cid_of h)); simpl;
          (eexists; split; [by rewrite <-app_assoc|]); nothing_stored.
      * eexists. split; [by rewrite <-app_assoc|]. nothing_stored.
    + eexists. split; [done|]. nothing_stored.
  - destruct err as [|e|msg|msg cause]; simpl;
      try (eexists; split; [done|]; nothing_stored).
    destruct (g x1) as [[h|err] x2]; simpl.
    + destruct (ChainStore_SetGenesis cs h x2) as [rs x3]; simpl.
      eexists. split; [by rewrite <-!app_assoc|]. left. by exists h.
    + eexists. split; [by rewrite <-app_assoc|]. nothing_stored.
Qed.

(** X14: when SetGenesis succeeds: either the repo had a genesis and the check
    was skipped with LOTUS_SKIP_GENESIS_CHECK=_yes_ or the genesis function
    returned a header with the same cid; or the repo answered ErrNotFound,
    the genesis function returned a header and the chain store accepted
    it. *)
Theorem SetGenesis_succeeds_iff (cs : ChainStore) (g : Genesis) (st : GSt) :
  (SetGenesis cs g st).1 = None
  ↔ match GetGenesis cs (gworld st) with
    | (GOk repo, x1) =>
        Getenv "LOTUS_SKIP_GENESIS_CHECK" = "_yes_"
        ∨ ∃ h, (g x1).1 = GOk h ∧ Cid_of repo = Cid_of h
    | (GErr err, x1) =>
        err = ErrNotFound
        ∧ ∃ h, (g x1).1 = GOk h ∧ (ChainStore_SetGenesis cs h (g x1).2).1 = None
    end.
Proof.
  unfold SetGenesis, gcall.
  destruct (GetGenesis cs (gworld st)) as [[repo|err] x1]; simpl.
  - destruct (decide (Getenv "LOTUS_SKIP_GENESIS_CHECK" ≠ "_yes_")) as [Hne|Heq];
      simpl.
    + destruct (g x1) as [[h|err] x2]; simpl.
      * destruct (decide (Cid_of repo ≠ Cid_of h)) as [Hc|Hc]; simpl.
        -- split; [done|]. intros [?|(h' & [= <-] & ?)]; done.
        -- split; [|done]. intros _. right. exists h. split; [done|].
           by destruct (decide (Cid_of repo = Cid_of h)).
      * split; [done|]. intros [?|(h' & ? & _)]; done.
    + split; [|done]. intros _. left.
      by destruct (decide (Getenv "LOTUS_SKIP_GENESIS_CHECK" = "_yes_")).
  - destruct err as [|e|msg|msg cause]; simpl;
      try (split; [done|]; by intros [? _]).
    destruct (g x1) as [[h|err] x2]; simpl.
    + destruct (ChainStore_SetGenesis cs h x2) as [rs x3] eqn:Hset; simpl.
      split.
      * intros ->. split; [done|]. exists h. by rewrite Hset.
      * intros (_ & h' & [= <-] & Hnone). by rewrite Hset in Hnone.
    + split; [done|]. by intros (_ & h' & ? & _).
Qed.

(** X15: with LOTUS_SKIP_GENESIS_CHECK set to _yes_ and a genesis in the repo,
    SetGenesis succeeds after the one GetGenesis call: the genesis function
    is not run, so neither its failure nor a different genesis is noticed. *)
Theorem SetGenesis_skip_check (cs : ChainStore) (g : Genesis) (st : GSt)
    (repo : Header) (x1 : Wd) :
  Getenv "LOTUS_SKIP_GENESIS_CHECK" = "_yes_" →
  GetGenesis cs (gworld st) = (GOk repo, x1) →
  SetGenesis cs g st
  = (None, {| gworld := x1; gevents := gevents st ++ [GevGetGenesis (GOk repo)] |}).
Proof.
  intros Henv Hget. unfold SetGenesis, gcall. rewrite Hget. simpl.
  by rewrite decide_False by (intros Hne; by apply Hne).
Qed.

(** X16: an error of GetGenesis other than the sentinel ErrNotFound, a wrapped
    ErrNotFound included, stops SetGenesis at once: it is returned wrapped,
    the genesis function is not run and nothing is stored. *)
Theorem SetGenesis_other_error (cs : ChainStore) (g : Genesis) (st : GSt)
    (err : gerror) (x1 : Wd) :
  GetGenesis cs (gworld st) = (GErr err, x1) →
  err ≠ ErrNotFound →
  SetGenesis cs g st
  = (Some (ErrWrap "getting genesis block failed" err),
     {| gworld := x1; gevents := gevents st ++ [GevGetGenesis (GErr err)] |}).
Proof.
  intros Hget Hne. unfold SetGenesis, gcall. rewrite Hget. simpl.
  by destruct err.
Qed.

(** X17: with the genesis function [ErrorGenesis] nothing is ever stored and
    SetGenesis succeeds only on a repo that has a genesis, with the check
    skipped; on a repo without genesis it fails with "genesis func failed"
    around ErrorGenesis' error. *)
Theorem SetGenesis_ErrorGenesis (cs : ChainStore) (st : GSt) :
  let no_genesis :=
    ErrNew "No genesis block provided, provide the file with 'lotus daemon --genesis=[genesis file]'" in
  ((SetGenesis cs ErrorGenesis st).1 = None
   ↔ (∃ repo, (GetGenesis cs (gworld st)).1 = GOk repo)
     ∧ Getenv "LOTUS_SKIP_GENESIS_CHECK" = "_yes_")
  ∧ gworld (SetGenesis cs ErrorGenesis st).2 = (GetGenesis cs (gworld st)).2
  ∧ ((GetGenesis cs (gworld st)).1 = GErr ErrNotFound →
     (SetGenesis cs ErrorGenesis st).1 = Some (ErrWrap "genesis func failed" no_genesis)).
Proof.
  intros no_genesis. unfold SetGenesis, gcall, ErrorGenesis.
  destruct (GetGenesis cs (gworld st)) as [[repo|err] x1]; simpl.
  - destruct (decide (Getenv "LOTUS_SKIP_GENESIS_CHECK" ≠ "_yes_")) as [Hne|Heq];
      simpl.
    + split; [|done]. split; [done|]. by intros [_ ?].
    + split; [|done]. split; [|done]. intros _. split; [by exists repo|].
      by destruct (decide (Getenv "LOTUS_SKIP_GENESIS_CHECK" = "_yes_")).
  - destruct err as [|e|msg|msg cause]; simpl;
      (split; [split; [done|by intros [[? ?] _]]|]); split; try done.
Qed.

(** X18: LoadGenesis returns a header exactly when LoadCar returns exactly
    one root, that root is in the block store and its data decodes; the
    header is the decoded one.  When LoadCar returns any other number of
    roots LoadGenesis fails with "expected genesis file to have one root"
    without reading the block store, in the world LoadCar left. *)
Theorem LoadGenesis_result (genBytes : list Byte.byte) (bs : ChainBlockstore)
    (x : Wd) :
  (∀ h, (LoadGenesis genBytes bs x).1 = GOk h
        ↔ ∃ root0 raw,
            (LoadCar bs genBytes x).1 = GOk [root0]
            ∧ (bsGet bs root0 (LoadCar bs genBytes x).2).1 = GOk raw
            ∧ DecodeBlock raw = GOk h)
  ∧ (∀ roots, (LoadCar bs genBytes x).1 = GOk roots → length roots ≠ 1 →
       LoadGenesis genBytes bs x
       = (GErr (ErrNew "expected genesis file to have one root"),
          (LoadCar bs genBytes x).2)).
Proof.
  unfold LoadGenesis.
  destruct (LoadCar bs genBytes x) as [[roots|err] x1]; simpl.
  - destruct roots as [|root0 [|root1 rest]]; simpl.
    + split; [|done]. intros h. split; [done|]. by intros (? & ? & ? & _).
    + split; [|by intros roots [= <-]].
      intros h. destruct (bsGet bs root0 x1) as [[raw|err] x2] eqn:Hget; simpl.
      * destruct (DecodeBlock raw) as [h'|err] eqn:Hdec; simpl.
        -- split.
           ++ intros [= <-]. exists root0, raw. by rewrite Hget.
           ++ intros (r & raw' & [= <-] & Hraw & Hd). rewrite Hget in Hraw.
              simpl in Hraw. injection Hraw as <-. by rewrite Hdec in Hd.
        -- split; [done|].
           intros (r & raw' & [= <-] & Hraw & Hd). rewrite Hget in Hraw.
           simpl in Hraw. injection Hraw as <-. by rewrite Hdec in Hd.
      * split; [done|].
        intros (r & raw' & [= <-] & Hraw & _). by rewrite Hget in Hraw.
    + split; [|done]. intros h. split; [done|]. by intros (? & ? & ? & _).
  - split; [|done]. intros h. split; [done|]. by intros (? & ? & ? & _).
Qed.

End Genesis.

Arguments GOk {E A} a.
Arguments GErr {E A} err.

(** * The lifetime of the bitswap cache ([ChainBitswap])

    [2 * time.Duration(build.BlockDelaySecs) * time.Second]: the block delay
    is a uint64 variable, [time.Duration] is an int64 count of nanoseconds,
    and the conversion and both products wrap. *)

Definition int64 (z : Z) : Z := ((z + 2 ^ 63) `mod` 2 ^ 64 - 2 ^ 63)%Z.

Definition Second : Z := 1000000000%Z.

Definition cache_lifetime (BlockDelaySecs : Z) : Z :=
  int64 (int64 (2 * int64 BlockDelaySecs) * Second).

Lemma int64_small (z : Z) : (- 2 ^ 63 ≤ z < 2 ^ 63)%Z → int64 z = z.
Proof. intros Hz. unfold int64. rewrite Z.mod_small; lia. Qed.

(** X19: the cache keeps blocks for exactly two block times for every block delay
    up to 4611686018 seconds; one second more and the product leaves int64
    and the lifetime is negative. *)
Theorem cache_lifetime_two_block_times (BlockDelaySecs : Z) :
  ((0 ≤ BlockDelaySecs ≤ 4611686018 →
    cache_lifetime BlockDelaySecs = 2 * BlockDelaySecs * Second
    ∧ 0 ≤ cache_lifetime BlockDelaySecs < 2 ^ 63)
   ∧ cache_lifetime 4611686019 < 0)%Z.
Proof.
  split; [|reflexivity].
  intros Hb. unfold cache_lifetime, Second.
  rewrite (int64_small BlockDelaySecs) by lia.
  rewrite (int64_small (2 * BlockDelaySecs)) by lia.
  rewrite int64_small by lia. lia.
Qed.

(** * A concrete chain store *)
Module GenesisDemo.

(** The world is the genesis the repo holds, if any; a header is its own
    cid. *)
Definition repo_store : @ChainStore (option nat) nat string :=
  {| GetGenesis := λ x,
       (match x with Some h => GOk h | None => GErr ErrNotFound end, x);
     ChainStore_SetGenesis := λ h x, (None, Some h) |}.

(** A chain store whose datastore fails while looking the genesis up. *)
Definition failing_store : @ChainStore (option nat) nat string :=
  {| GetGenesis := λ x, (GErr (ErrWrap "datastore closed" ErrNotFound), x);
     ChainStore_SetGenesis := λ h x, (None, Some h) |}.

Definition skipping (k : string) : string :=
  if decide (k = "LOTUS_SKIP_GENESIS_CHECK") then "_yes_" else "".
Definition checking (k : string) : string := "".

Definition other_genesis : @Genesis (option nat) nat string := λ x, (GOk 8, x).

Definition fresh (x : option nat) : @GSt (option nat) nat string :=
  {| gworld := x; gevents := [] |}.

(** A fresh repo gets the genesis; with the check on, a repo holding another
    genesis is refused and keeps its own; with the check skipped it is
    accepted. *)
Example genesis_cases :
  SetGenesis id checking repo_store other_genesis (fresh None)
  = (None, {| gworld := Some 8;
              gevents := [GevGetGenesis (GErr ErrNotFound);
                          GevGenesisFunc (GOk 8); GevSetGenesis 8 None] |})
  ∧ SetGenesis id checking repo_store other_genesis (fresh (Some 7))
    = (Some (ErrNew "genesis in the repo is not the one expected by this version of Lotus!"),
       {| gworld := Some 7;
          gevents := [GevGetGenesis (GOk 7); GevGenesisFunc (GOk 8)] |})
  ∧ (SetGenesis id skipping repo_store other_genesis (fresh (Some 7))).1 = None.
Proof. repeat split; reflexivity. Qed.

Lemma SetGenesis_skip_check_witness :
  SetGenesis id skipping repo_store ErrorGenesis (fresh (Some 7))
  = (None, {| gworld := Some 7; gevents := [] ++ [GevGetGenesis (GOk 7)] |}).
Proof.
  apply (SetGenesis_skip_check id skipping repo_store ErrorGenesis (fresh (Some 7)) 7);
    reflexivity.
Defined.

Lemma SetGenesis_other_error_witness :
  SetGenesis id checking failing_store other_genesis (fresh None)
  = (Some (ErrWrap "getting genesis block failed"
             (ErrWrap "datastore closed" ErrNotFound)),
     {| gworld := None;
        gevents := [] ++ [GevGetGenesis (GErr (ErrWrap "datastore closed" ErrNotFound))] |}).
Proof.
  apply (SetGenesis_other_error id checking failing_store other_genesis (fresh None));
    [reflexivity|discriminate].
Defined.

End GenesisDemo.
